(** * bundlewrap: group hierarchy resolver ([bundlewrap/group.py])

    A shallow embedding of the [Group] class: construction from an
    attribute dictionary, name ordering, pattern-derived subgroups, the
    recursive subgroup traversal with loop detection, and the membership
    and state digests. *)

From stdpp Require Import base tactics option list strings sorting relations.

(** ** Exceptions and results *)

(** The three texts [group.py] puts into a [RepositoryError]:
    - ['{}' is not a valid group name.]
    - [Group '{group}' has '{subgroup}' listed as a subgroup in groups.py,
       but no such group could be found.]
    - [Group '{group}' can't be a subgroup of itself. ({chain})], where the
      chain is printed as [" -> ".join(error_chain)]. *)
Inductive repo_error : Type :=
  | InvalidGroupName (group_name : string)
  | SubgroupNotFound (group subgroup : string)
  | SubgroupLoop (group : string) (error_chain : list string).

Inductive exn : Type :=
  | RepositoryError (msg : repo_error)
  | NoSuchGroup (group_name : string)
  (* whatever [validate_dict] raises, tagged by [error_context(group_name=...)] *)
  | ValidationError (group_name : string)
  (* [re.error], as raised by [re.compile]; it carries the offending pattern *)
  | ReError (pattern : string).

Inductive result (A : Type) : Type :=
  | Ok (a : A)
  | Raise (e : exn).
Arguments Ok {A} a.
Arguments Raise {A} e.

Definition rbind {A B} (m : result A) (k : A → result B) : result B :=
  match m with
  | Ok a => k a
  | Raise e => Raise e
  end.

Notation "'try!' x ':=' m 'in' k" := (rbind m (λ x, k))
  (at level 10, x name, m at level 100, k at level 200, only parsing).

Fixpoint rmap {A B} (f : A → result B) (l : list A) : result (list B) :=
  match l with
  | [] => Ok []
  | a :: l' => try! b := f a in try! bs := rmap f l' in Ok (b :: bs)
  end.

(** ** [_build_error_chain] *)

(** One round of the [for visited in nodes_in_between] loop: Python's [!=]
    on two booleans is exclusive or. *)
Definition chain_step (loop_node : string) (error_chain : list string)
    (visited : string) : list string :=
  if xorb (bool_decide (loop_node ∈ error_chain))
          (bool_decide (loop_node = visited))
  then error_chain ++ [visited]
  else error_chain.

Definition _build_error_chain (loop_node last_node : string)
    (nodes_in_between : list string) : list string :=
  let error_chain := foldl (chain_step loop_node) [] nodes_in_between in
  (error_chain ++ [last_node]) ++ [loop_node].

(** The direct construction the specification describes: find the first
    index of the repeated name in the recorded path, slice from there, and
    close the chain with the current group and the repeated name. *)
Fixpoint first_index (n : string) (path : list string) : nat :=
  match path with
  | [] => 0
  | x :: path' => if bool_decide (x = n) then 0 else S (first_index n path')
  end.

Definition chain_by_slicing (loop_node last_node : string)
    (path : list string) : list string :=
  drop (first_index loop_node path) path ++ [last_node; loop_node].

(** ** Python values used by the class *)

(** [str] values are compared by code point; on UTF-8 encoded strings that
    is the lexicographic order of the bytes, which is [String.ltb]. *)
Definition str_lt (a b : string) : bool := String.ltb a b.

(** The lexicographic order on names, as the specification words it: a
    proper prefix comes first, otherwise the first differing character
    decides. *)
Inductive lex_lt : string → string → Prop :=
  | lex_lt_prefix c s : lex_lt EmptyString (String c s)
  | lex_lt_head c1 c2 s1 s2 :
      (Ascii.N_of_ascii c1 < Ascii.N_of_ascii c2)%N →
      lex_lt (String c1 s1) (String c2 s2)
  | lex_lt_tail c s1 s2 : lex_lt s1 s2 → lex_lt (String c s1) (String c s2).

(** A compiled [re] pattern object, identified by its source text. *)
Record Pattern : Type := { pattern_source : string }.

Global Instance Pattern_eq_dec : EqDecision Pattern.
Proof. solve_decision. Defined.

(** The values an attribute dictionary can hold (after [GROUP_ATTR_TYPES]). *)
Inductive value : Type :=
  | VNone
  | VBool (b : bool)
  | VStr (s : string)
  | VInts (t : list Z)
  | VStrs (c : list string)
  | VDict (d : list (string * string)).

Definition InfoDict : Type := list (string * value).

(** [infodict.get(key, default)] *)
Definition dict_get (d : InfoDict) (key : string) (default : value) : value :=
  match list_find (λ kv, kv.1 = key) d with
  | Some (_, (_, v)) => v
  | None => default
  end.

(** Iterating a collection of strings ([list(...)], [for pattern in ...]). *)
Definition strings_of (v : value) : list string :=
  match v with
  | VStrs c => c
  | _ => []
  end.

Definition GROUP_ATTR_DEFAULTS : list (string * value) :=
  [ ("cmd_wrapper_inner", VStr "export LANG=C; {}");
    ("cmd_wrapper_outer", VStr "sudo sh -c {}");
    ("dummy", VBool false);
    ("kubectl_context", VNone);
    ("locking_node", VNone);
    ("os", VStr "linux");
    ("os_version", VInts [0%Z]);
    ("use_shadow_passwords", VBool true) ].

(** ** The [Group] object *)

(** [oid] is the object's identity ([id(self)]): the class defines
    [__lt__] only, so [==] and [!=] between groups compare identities.
    The two pattern fields are Python sets, kept in their iteration
    order. *)
Record Group : Type := {
  oid : nat;
  name : string;
  bundle_names : list string;
  immediate_subgroup_names : list string;
  immediate_subgroup_patterns : list Pattern;
  metadata : value;
  member_patterns : list Pattern;
  attrs : list (string * value)
}.

(** [Group.__lt__] *)
Definition Group_lt (self other : Group) : bool := str_lt (name self) (name other).

(** [self == other], the default identity comparison of objects. *)
Definition Group_eq (self other : Group) : bool := bool_decide (oid self = oid other).

(** [self != other] *)
Definition Group_ne (self other : Group) : bool := negb (Group_eq self other).

(** [self in seq], for a sequence of groups: an element is found by
    comparing with [==], here the identity. *)
Definition Group_in (self : Group) (seq : list Group) : bool :=
  existsb (Group_eq self) seq.

(** [Group.__repr__] *)
Definition Group_repr (self : Group) : string := "<Group: " +:+ name self +:+ ">".

(** [Group.__str__] *)
Definition Group_str (self : Group) : string := name self.

(** A node, with the operations the node abstraction supplies. *)
Record Node : Type := {
  node_name : string;
  in_group : string → bool;
  node_hash : string;
  node_metadata_hash : string
}.

(** Modelled from the spec: the repository that owns the groups and the
    nodes ([repo.groups], [repo.nodes], [repo.get_group]) is not part of
    [group.py]; the registry "supplies get_group(name), iteration over all
    groups, iteration over all nodes", and a lookup of an absent name
    fails with "no such group". *)
Record Repository : Type := {
  groups : list Group;
  nodes : list Node
}.

Definition get_group (repo : Repository) (group_name : string) : result Group :=
  match list_find (λ g, name g = group_name) (groups repo) with
  | Some (_, g) => Ok g
  | None => Raise (NoSuchGroup group_name)
  end.

Section Resolver.

(** [pattern.search(name) is not None], for a compiled pattern. *)
Variable re_search : Pattern → string → bool.

(** The order in which Python iterates [set(l)]: some enumeration of
    the elements of [l], not further specified. *)
Variable set_iter : list string → list string.

(** [Group._subgroup_names_from_patterns] *)
Definition _subgroup_names_from_patterns (repo : Repository) (self : Group)
    : list string :=
  pattern ← immediate_subgroup_patterns self;
  group ← groups repo;
  if re_search pattern (name group) && Group_ne group self
  then [name group] else [].

(** The names the [for] loops of [_check_subgroup_names] and
    [immediate_subgroups] run over. *)
Definition candidate_names (repo : Repository) (self : Group) : list string :=
  set_iter (immediate_subgroup_names self ++
            _subgroup_names_from_patterns repo self).

(** The body of [for name in set(...)]: [recurse group] stands for the
    names yielded by [group._check_subgroup_names(visited_names +
    [self.name])], [None] for a recursion that was cut off. *)
Fixpoint visit_names (repo : Repository)
    (recurse : Group → option (result (list string)))
    (self_name : string) (visited_names : list string)
    (todo : list string) : option (result (list string)) :=
  match todo with
  | [] => Some (Ok [])
  | name :: todo' =>
      if bool_decide (name ∉ visited_names) then
        match get_group repo name with
        | Raise (NoSuchGroup _) =>
            Some (Raise (RepositoryError (SubgroupNotFound self_name name)))
        | Raise e => Some (Raise e)
        | Ok group =>
            match recurse group with
            | None => None
            | Some (Raise e) => Some (Raise e)
            | Some (Ok yielded) =>
                match visit_names repo recurse self_name visited_names todo' with
                | Some (Ok more) => Some (Ok (yielded ++ more))
                | other => other
                end
            end
        end
      else
        let error_chain := _build_error_chain name self_name visited_names in
        Some (Raise (RepositoryError (SubgroupLoop name error_chain)))
  end.

(** [Group._check_subgroup_names]: the list of the names the generator
    yields, or the exception it raises. [depth] bounds the number of
    nested activations: every call uses one unit and hands the rest to
    the calls it makes, so the result is [None] exactly when the
    traversal needs more than [depth] frames on the stack. *)
Fixpoint _check_subgroup_names (depth : nat) (repo : Repository)
    (self : Group) (visited_names : list string)
    : option (result (list string)) :=
  match depth with
  | 0 => None
  | S depth' =>
      match visit_names repo
              (λ group, _check_subgroup_names depth' repo group
                          (visited_names ++ [name self]))
              (name self) visited_names (candidate_names repo self) with
      | Some (Ok yielded) =>
          Some (Ok (yielded ++
                    if bool_decide (name self ∉ visited_names)
                    then [name self] else []))
      | other => other
      end
  end.

(** The stack depth [subgroups] allows the traversal; no traversal needs
    more, whatever the registry holds. *)
Definition stack_bound (repo : Repository) : nat := 2 * length (groups repo) + 1.

(** [Group.subgroups] *)
Definition subgroups (repo : Repository) (self : Group)
    : option (result (list Group)) :=
  match _check_subgroup_names (stack_bound repo) repo self [name self] with
  | None => None
  | Some (Raise e) => Some (Raise e)
  | Some (Ok yielded) => Some (rmap (get_group repo) (set_iter yielded))
  end.

(** [Group.immediate_subgroups] *)
Definition immediate_subgroups (repo : Repository) (self : Group)
    : result (list Group) :=
  rmap (λ group_name,
          match get_group repo group_name with
          | Raise (NoSuchGroup _) =>
              Raise (RepositoryError (SubgroupNotFound (name self) group_name))
          | other => other
          end)
       (candidate_names repo self).

(** The loop of [parent_groups] and [immediate_parent_groups],
    [for group in self.repo.groups: if self in <subgroups of group>: yield
    group], with [subs] computing the subgroups looked at. *)
Fixpoint parents_scan (subs : Group → option (result (list Group)))
    (self : Group) (todo : list Group) : option (result (list Group)) :=
  match todo with
  | [] => Some (Ok [])
  | group :: todo' =>
      match subs group with
      | None => None
      | Some (Raise e) => Some (Raise e)
      | Some (Ok group_subgroups) =>
          match parents_scan subs self todo' with
          | Some (Ok more) =>
              Some (Ok (if Group_in self group_subgroups then group :: more else more))
          | other => other
          end
      end
  end.

(** [Group.parent_groups] *)
Definition parent_groups (repo : Repository) (self : Group)
    : option (result (list Group)) :=
  parents_scan (subgroups repo) self (groups repo).

(** [Group.immediate_parent_groups] *)
Definition immediate_parent_groups (repo : Repository) (self : Group)
    : option (result (list Group)) :=
  parents_scan (λ group, Some (immediate_subgroups repo group)) self (groups repo).

End Resolver.

Section Construction.

(** [validate_name], from [utils.text]. *)
Variable validate_name : string → bool.

(** Whether [validate_dict(infodict, GROUP_ATTR_TYPES)] returns without
    raising. *)
Variable validate_dict : InfoDict → bool.

(** Whether [re.compile] accepts a pattern source. *)
Variable re_valid : string → bool.

(** The iteration order of a set of compiled patterns. *)
Variable pattern_set_iter : list Pattern → list Pattern.

(** [re.compile] *)
Definition re_compile (pattern : string) : result Pattern :=
  if re_valid pattern then Ok {| pattern_source := pattern |}
  else Raise (ReError pattern).

(** [Group.__init__]; [self_id] is the identity of the new object. The
    two set comprehensions compile their strings one after the other and
    nothing around them catches what [re.compile] raises. *)
Definition Group_init (self_id : nat) (group_name : string)
    (infodict : option InfoDict) : result Group :=
  let infodict := default [] infodict in
  if negb (validate_name group_name) then
    Raise (RepositoryError (InvalidGroupName group_name))
  else if negb (validate_dict infodict) then
    Raise (ValidationError group_name)
  else
    try! subgroup_patterns :=
      rmap re_compile (strings_of (dict_get infodict "subgroup_patterns" (VStrs []))) in
    try! member_patterns :=
      rmap re_compile (strings_of (dict_get infodict "member_patterns" (VStrs []))) in
    Ok {| oid := self_id;
          name := group_name;
          bundle_names := strings_of (dict_get infodict "bundles" (VStrs []));
          immediate_subgroup_names :=
            strings_of (dict_get infodict "subgroups" (VStrs []));
          immediate_subgroup_patterns := pattern_set_iter subgroup_patterns;
          metadata := dict_get infodict "metadata" (VDict []);
          member_patterns := pattern_set_iter member_patterns;
          attrs := (λ kv, (kv.1, dict_get infodict kv.1 VNone)) <$> GROUP_ATTR_DEFAULTS |}.

End Construction.

(** ** Nodes and digests *)

(** A Python [dict] from strings to strings, in insertion order;
    [d[k] = v] replaces the value of a key that is present and appends a
    new key at the end. *)
Definition pydict : Type := list (string * string).

Fixpoint dict_setitem (d : pydict) (k v : string) : pydict :=
  match d with
  | [] => [(k, v)]
  | (k', v') :: d' =>
      if bool_decide (k' = k) then (k, v) :: d' else (k', v') :: dict_setitem d' k v
  end.

(** [d.get(k)] *)
Fixpoint dict_getitem (d : pydict) (k : string) : option string :=
  match d with
  | [] => None
  | (k', v) :: d' => if bool_decide (k' = k) then Some v else dict_getitem d' k
  end.

(** What [hash_statedict] is applied to in this class. *)
Inductive statedict : Type :=
  | SList (l : list string)
  | SDict (d : pydict).

(** [sorted] on a list of strings. *)
Definition sorted (l : list string) : list string := merge_sort String.le l.

(** The order of two dictionary items by key. *)
Definition key_le (a b : string * string) : Prop := String.le a.1 b.1.

Global Instance key_le_dec : RelDecision key_le.
Proof. intros a b. unfold key_le. apply _. Defined.

(** [names], from [utils]: the names of a sequence of objects. *)
Definition names (obj_list : list Node) : list string := node_name <$> obj_list.

(** [Group.nodes] *)
Definition Group_nodes (repo : Repository) (self : Group) : list Node :=
  filter (λ node, in_group node (name self) = true) (nodes repo).

(** [Group.cdict] *)
Definition cdict (repo : Repository) (self : Group) : pydict :=
  foldl (λ group_dict node, dict_setitem group_dict (node_name node) (node_hash node))
        [] (Group_nodes repo self).

Section Hashing.

(** The digest of a serialized value: the hexadecimal SHA-1 of its JSON
    text in the repository. Nothing here depends on how a digest is
    represented, so its type is left open. *)
Context {Digest : Type}.
Variable digest : statedict → Digest.

(** Modelled from the spec: [hash_statedict] lives in [utils.dicts], not
    in [group.py]. It "digests that mapping as a whole, using a canonical
    (order-independent, key-sorted) serialization"; a sequence is
    serialized in its own order. *)
Definition canonical (sdict : statedict) : statedict :=
  match sdict with
  | SList l => SList l
  | SDict d => SDict (merge_sort key_le d)
  end.

Definition hash_statedict (sdict : statedict) : Digest :=
  digest (canonical sdict).

(** [Group.group_membership_hash] *)
Definition group_membership_hash (repo : Repository) (self : Group) : Digest :=
  hash_statedict (SList (sorted (names (Group_nodes repo self)))).

(** [Group.hash] *)
Definition Group_hash (repo : Repository) (self : Group) : Digest :=
  hash_statedict (SDict (cdict repo self)).

(** [Group.metadata_hash] *)
Definition metadata_hash (repo : Repository) (self : Group) : Digest :=
  hash_statedict
    (SDict (foldl (λ group_dict node,
                     dict_setitem group_dict (node_name node) (node_metadata_hash node))
                  [] (Group_nodes repo self))).

End Hashing.

(** ** The subgroup graph *)

(** [a → b]: [b] is an explicit or a pattern-derived subgroup name of the
    group registered as [a]. *)
Definition subgroup_edge (re_search : Pattern → string → bool)
    (repo : Repository) (a b : string) : Prop :=
  ∃ g, get_group repo a = Ok g ∧
       (b ∈ immediate_subgroup_names g ∨
        b ∈ _subgroup_names_from_patterns re_search repo g).

Definition acyclic (re_search : Pattern → string → bool)
    (repo : Repository) : Prop :=
  ∀ n, ¬ tc (subgroup_edge re_search repo) n n.

(** Every subgroup name resolves to a group of the registry. *)
Definition resolvable (re_search : Pattern → string → bool)
    (repo : Repository) : Prop :=
  ∀ a b, subgroup_edge re_search repo a b → ∃ g, get_group repo b = Ok g.

(** A list of names in which every name has the next one as a subgroup. *)
Definition subgroup_path (re_search : Pattern → string → bool)
    (repo : Repository) (l : list string) : Prop :=
  ∀ i a b, l !! i = Some a → l !! S i = Some b → subgroup_edge re_search repo a b.

(** The arguments [_check_subgroup_names] is entered with below [root]:
    [on_stack root visited_names g] for the call on the group named [g]
    with the path [visited_names]. *)
Inductive on_stack (re_search : Pattern → string → bool) (repo : Repository)
    (root : string) : list string → string → Prop :=
  | on_stack_root : on_stack re_search repo root [root] root
  | on_stack_call v g g' :
      on_stack re_search repo root v g →
      subgroup_edge re_search repo g g' →
      g' ∉ v →
      on_stack re_search repo root (v ++ [g]) g'.

(** A registry whose groups have pairwise different names. *)
Definition unique_names (repo : Repository) : Prop :=
  NoDup (name <$> groups repo).

(** ** Sample registries *)

(** A group as [Group(name, {'subgroups': ..., 'subgroup_patterns': ...})]
    builds it, all other attributes unset. *)
Definition sample_group (id : nat) (group_name : string)
    (subgroup_names subgroup_patterns : list string) : Group :=
  {| oid := id;
     name := group_name;
     bundle_names := [];
     immediate_subgroup_names := subgroup_names;
     immediate_subgroup_patterns := (λ p, {| pattern_source := p |}) <$> subgroup_patterns;
     metadata := VDict [];
     member_patterns := [];
     attrs := (λ kv, (kv.1, VNone)) <$> GROUP_ATTR_DEFAULTS |}.

(** One iteration order a set can have: first insertion first. *)
Definition insertion_order (l : list string) : list string := remove_dups l.

(** [re]'s [search] on the patterns of the samples, which are of the form
    [^literal]: the name starts with the literal. *)
Definition anchored_search (p : Pattern) (s : string) : bool :=
  match pattern_source p with
  | String c literal =>
      if bool_decide (String c "" = "^") then String.prefix literal s else false
  | EmptyString => false
  end.

(** [re.compile] rejects ["["], an unterminated character set; the other
    pattern sources of the samples compile. *)
Definition sample_re_valid (p : string) : bool := negb (bool_decide (p = "[")).

(** [web] takes every group whose name starts with [db-]. *)
Definition web : Group := sample_group 0 "web" ["cache"] ["^db-"].
Definition web_repo : Repository :=
  {| groups := [ web;
                 sample_group 1 "db-primary" [] [];
                 sample_group 2 "db-replica" [] [];
                 sample_group 3 "cache" [] [] ];
     nodes := [] |}.

(** [dbs] matches its own pattern. *)
Definition dbs : Group := sample_group 0 "db-all" [] ["^db-"].
Definition dbs_repo : Repository :=
  {| groups := [ dbs; sample_group 1 "db-primary" [] [] ]; nodes := [] |}.

(** [A -> B -> C -> A] *)
Definition group_A : Group := sample_group 0 "A" ["B"] [].
Definition loop_repo : Repository :=
  {| groups := [ group_A; sample_group 1 "B" ["C"] []; sample_group 2 "C" ["A"] [] ];
     nodes := [] |}.

(** [R -> G] and [G -> G]: a group below the root that lists itself. *)
Definition group_R : Group := sample_group 0 "R" ["G"] [].
Definition self_loop_repo : Repository :=
  {| groups := [ group_R; sample_group 1 "G" ["G"] [] ]; nodes := [] |}.

(** [X -> M] and [X -> A -> X], where no group is called [M]. *)
Definition group_X : Group := sample_group 0 "X" ["M"; "A"] [].
Definition dangling_repo : Repository :=
  {| groups := [ group_X; sample_group 1 "A" ["X"] [] ]; nodes := [] |}.

(** A group [G] with the members [node1] and [node2], and the same
    registry iterated in reverse. *)
Definition sample_node (n h : string) (member_of : list string) : Node :=
  {| node_name := n;
     in_group := λ g, bool_decide (g ∈ member_of);
     node_hash := h;
     node_metadata_hash := "" |}.
Definition group_G : Group := sample_group 0 "G" [] [].
Definition node1 : Node := sample_node "node1" "h1" ["G"].
Definition node2 : Node := sample_node "node2" "h2" ["G"].
Definition node3 : Node := sample_node "node3" "h3" ["other"].
Definition nodes_repo : Repository :=
  {| groups := [group_G]; nodes := [node1; node3; node2] |}.
Definition reversed_repo : Repository :=
  {| groups := [group_G]; nodes := [node2; node3; node1] |}.
(** [node2] with another state. *)
Definition changed_repo : Repository :=
  {| groups := [group_G]; nodes := [node1; node3; sample_node "node2" "h2'" ["G"]] |}.

(** [top -> mid -> leaf], and [side], which nothing refers to. *)
Definition group_top : Group := sample_group 0 "top" ["mid"] [].
Definition group_mid : Group := sample_group 1 "mid" ["leaf"] [].
Definition group_leaf : Group := sample_group 2 "leaf" [] [].
Definition nested_repo : Repository :=
  {| groups := [ group_top; group_mid; group_leaf; sample_group 3 "side" [] [] ];
     nodes := [] |}.

(** A group that lists itself, and nothing else. *)
Definition group_own : Group := sample_group 0 "own" ["own"] [].
Definition own_repo : Repository := {| groups := [group_own]; nodes := [] |}.

(** Two member nodes that carry the same name. *)
Definition twin_repo : Repository :=
  {| groups := [group_G];
     nodes := [sample_node "twin" "h1" ["G"]; sample_node "twin" "h2" ["G"]] |}.

(** Two objects built for the same name. *)
Definition first_a : Group := sample_group 1 "a" [] [].
Definition second_a : Group := sample_group 2 "a" [] [].

(** * Properties *)

(** Closed decidable facts, by evaluation of their decision procedure. *)
Ltac by_eval := apply (bool_decide_unpack _); vm_compute; exact I.

Example chain_example :
  _build_error_chain "A" "C" ["A"; "A"; "B"] = ["A"; "B"; "C"; "A"].
Proof. reflexivity. Qed.

(** *** Properties of the toggle loop *)

Lemma chain_foldl_absent (n : string) (l acc : list string) :
  n ∈ acc → n ∉ l → foldl (chain_step n) acc l = acc ++ l.
Proof.
  revert acc. induction l as [|x l IH]; intros acc Hacc Hl; simpl.
  - by rewrite app_nil_r.
  - apply not_elem_of_cons in Hl as [Hx Hl].
    unfold chain_step at 2.
    rewrite (bool_decide_eq_true_2 _ Hacc), (bool_decide_eq_false_2 _ Hx). simpl.
    rewrite IH; [by rewrite <- app_assoc | set_solver | done].
Qed.

Lemma chain_foldl_before (n : string) (l : list string) :
  n ∉ l → foldl (chain_step n) [] l = [].
Proof.
  induction l as [|x l IH]; intros Hl; simpl; [done|].
  apply not_elem_of_cons in Hl as [Hx Hl].
  unfold chain_step at 2.
  rewrite bool_decide_eq_false_2 by set_solver.
  rewrite (bool_decide_eq_false_2 _ Hx). simpl. auto.
Qed.

(** Whenever the repeated name is on the path, the loop's chain begins
    with it (duplicates on the path allowed). *)
Lemma chain_foldl_head (n : string) (l : list string) :
  n ∈ l → ∃ tl, foldl (chain_step n) [] l = n :: tl.
Proof.
  induction l as [|x l IH]; intros Hl; [by apply elem_of_nil in Hl|].
  simpl. unfold chain_step at 2.
  rewrite bool_decide_eq_false_2 by set_solver. simpl.
  destruct (decide (n = x)) as [->|Hne].
  - rewrite bool_decide_eq_true_2 by done. simpl.
    clear. generalize (@nil string). intros pre.
    assert (∀ acc, ∃ tl, foldl (chain_step x) (x :: acc) l = x :: tl) as H.
    { induction l as [|y l IHl]; intros acc; simpl; [eauto|].
      unfold chain_step at 2. destruct (xorb _ _); simpl; [apply (IHl (acc ++ [y]))|apply IHl]. }
    apply H.
  - rewrite bool_decide_eq_false_2 by done. simpl.
    apply IH. set_solver.
Qed.

Lemma first_index_drop (n : string) (l : list string) :
  NoDup l → n ∈ l →
  ∃ pre post, l = pre ++ (n :: post) ∧ (n ∉ pre) ∧ (n ∉ post) ∧
              drop (first_index n l) l = n :: post.
Proof.
  induction l as [|x l IH]; intros Hnd Hin; [by apply elem_of_nil in Hin|].
  apply NoDup_cons in Hnd as [Hx Hnd]. simpl.
  destruct (decide (x = n)) as [->|Hne].
  - rewrite bool_decide_eq_true_2 by done.
    exists [], l. simpl. split_and!; [done|set_solver|done|done].
  - rewrite bool_decide_eq_false_2 by done. simpl.
    destruct IH as (pre & post & -> & Hpre & Hpost & Hdrop); [done|set_solver|].
    exists (x :: pre), post. split_and!; [done|set_solver|done|done].
Qed.

(** C3: on a duplicate-free path that contains the repeated name, the
    toggle-based [_build_error_chain] returns exactly the path's suffix
    from the first occurrence of [loop_node], followed by [last_node] and
    [loop_node]; the non-cyclic prefix is discarded. *)
Theorem build_error_chain_is_slice (loop_node last_node : string)
    (nodes_in_between : list string) :
  NoDup nodes_in_between →
  loop_node ∈ nodes_in_between →
  _build_error_chain loop_node last_node nodes_in_between
  = chain_by_slicing loop_node last_node nodes_in_between.
Proof.
  intros Hnd Hin.
  destruct (first_index_drop _ _ Hnd Hin) as (pre & post & Hl & Hpre & Hpost & Hdrop).
  unfold _build_error_chain, chain_by_slicing. rewrite Hdrop.
  rewrite Hl, foldl_app, (chain_foldl_before _ _ Hpre). simpl.
  unfold chain_step at 2.
  rewrite (bool_decide_eq_false_2 (loop_node ∈ [])) by apply not_elem_of_nil.
  rewrite (bool_decide_eq_true_2 (loop_node = loop_node)) by done. simpl.
  rewrite chain_foldl_absent; [|apply list_elem_of_here|done].
  simpl. by rewrite <- app_assoc.
Qed.

Lemma build_error_chain_is_slice_witness :
  NoDup ["R"; "A"; "B"] ∧ "A" ∈ ["R"; "A"; "B"] ∧
  _build_error_chain "A" "C" ["R"; "A"; "B"] = ["A"; "B"; "C"; "A"].
Proof.
  assert (NoDup ["R"; "A"; "B"]) as Hnd by by_eval.
  assert ("A" ∈ ["R"; "A"; "B"]) as Hin by by_eval.
  split; [exact Hnd|]. split; [exact Hin|].
  rewrite (build_error_chain_is_slice "A" "C" ["R"; "A"; "B"] Hnd Hin).
  reflexivity.
Defined.


(** ** The registry lookup *)

Lemma NoDup_fmap_elem_inj {A B : Type} (f : A → B) (l : list A) (x y : A) :
  NoDup (f <$> l) → x ∈ l → y ∈ l → f x = f y → x = y.
Proof.
  intros Hnd Hx Hy Hf.
  apply list_elem_of_lookup_1 in Hx as [i Hi].
  apply list_elem_of_lookup_1 in Hy as [j Hj].
  assert (i = j) as ->; [|congruence].
  eapply NoDup_lookup; [exact Hnd| |].
  - rewrite list_lookup_fmap, Hi. done.
  - rewrite list_lookup_fmap, Hj. simpl. by rewrite Hf.
Qed.

Lemma get_group_Ok (repo : Repository) (n : string) (g : Group) :
  get_group repo n = Ok g → name g = n ∧ g ∈ groups repo.
Proof.
  unfold get_group. destruct (list_find _ _) as [[i g']|] eqn:Hfind; [|done].
  intros [= ->]. apply list_find_Some in Hfind as (Hi & Hn & _).
  split; [done|]. by eapply list_elem_of_lookup_2.
Qed.

Lemma get_group_Raise (repo : Repository) (n : string) (e : exn) :
  get_group repo n = Raise e →
  e = NoSuchGroup n ∧ n ∉ (name <$> groups repo).
Proof.
  unfold get_group. destruct (list_find _ _) as [[i g']|] eqn:Hfind; [done|].
  intros [= <-]. split; [done|].
  apply list_find_None in Hfind. rewrite list_elem_of_fmap.
  intros (g & -> & Hg). by eapply Forall_forall in Hfind.
Qed.

Lemma get_group_registered (repo : Repository) (n : string) (g : Group) :
  get_group repo n = Ok g → get_group repo (name g) = Ok g.
Proof. intros H. by destruct (get_group_Ok _ _ _ H) as [-> _]. Qed.

Lemma get_group_unique (repo : Repository) (g : Group) :
  unique_names repo → g ∈ groups repo → get_group repo (name g) = Ok g.
Proof.
  intros Hnd Hg. destruct (get_group repo (name g)) as [g'|e] eqn:Hget.
  - destruct (get_group_Ok _ _ _ Hget) as [Hn Hg'].
    f_equal. by apply (NoDup_fmap_elem_inj name (groups repo)).
  - destruct (get_group_Raise _ _ _ Hget) as [_ Hn].
    exfalso. apply Hn, list_elem_of_fmap. eauto.
Qed.

(** ** Counting the names that can still be entered *)

Lemma remaining_le (R xs ys : list string) :
  length (filter (λ n, n ∉ xs ++ ys) R) ≤ length (filter (λ n, n ∉ xs) R).
Proof.
  induction R as [|r R IH]; [done|].
  rewrite !filter_cons.
  destruct (decide (r ∉ xs ++ ys)) as [H1|H1], (decide (r ∉ xs)) as [H2|H2];
    simpl; try lia.
  exfalso. apply H2. intros ?. apply H1, elem_of_app. by left.
Qed.

Lemma remaining_lt (R xs : list string) (c : string) :
  c ∈ R → c ∉ xs →
  length (filter (λ n, n ∉ xs ++ [c]) R) < length (filter (λ n, n ∉ xs) R).
Proof.
  intros Hc Hxs. induction R as [|r R IH]; [by apply elem_of_nil in Hc|].
  rewrite !filter_cons.
  pose proof (remaining_le R xs [c]) as Hle.
  destruct (decide (r = c)) as [->|Hne].
  - destruct (decide (c ∉ xs ++ [c])) as [H1|H1].
    { exfalso. apply H1, elem_of_app. right. apply list_elem_of_here. }
    destruct (decide (c ∉ xs)); [simpl; lia|done].
  - apply elem_of_cons in Hc as [Hc|Hc]; [congruence|]. specialize (IH Hc).
    destruct (decide (r ∉ xs ++ [c])) as [H1|H1], (decide (r ∉ xs)) as [H2|H2];
      simpl; try lia.
    exfalso. apply H2. intros ?. apply H1, elem_of_app. by left.
Qed.

Lemma remaining_same (R xs : list string) (c : string) :
  c ∈ xs →
  length (filter (λ n, n ∉ xs ++ [c]) R) = length (filter (λ n, n ∉ xs) R).
Proof.
  intros Hc. f_equal. apply list_filter_iff. intros n.
  rewrite elem_of_app, list_elem_of_singleton. split; [tauto|].
  intros Hn [?| ->]; done.
Qed.

Lemma remaining_registered (R xs : list string) (c : string) :
  c ∈ R → c ∈ xs → length (filter (λ n, n ∉ xs) R) < length R.
Proof.
  intros Hc Hxs. induction R as [|r R IH]; [by apply elem_of_nil in Hc|].
  rewrite filter_cons. pose proof (length_filter (λ n, n ∉ xs) R) as Hle.
  destruct (decide (r = c)) as [->|Hne].
  - destruct (decide (c ∉ xs)); [done|simpl; lia].
  - apply elem_of_cons in Hc as [Hc|Hc]; [congruence|]. specialize (IH Hc).
    destruct (decide (r ∉ xs)); simpl; lia.
Qed.

(** ** The loop over the candidate names *)

Section VisitNames.

Variable repo : Repository.
Variable recurse : Group → option (result (list string)).
Variables (self_name : string) (visited : list string).

Local Abbreviation visit := (visit_names repo recurse self_name visited).

Lemma visit_names_Ok (todo ys : list string) :
  visit todo = Some (Ok ys) →
  (∀ c, c ∈ todo →
     (c ∉ visited) ∧
     ∃ g zs, get_group repo c = Ok g ∧ recurse g = Some (Ok zs) ∧ zs ⊆ ys) ∧
  (∀ y, y ∈ ys →
     ∃ c g zs, c ∈ todo ∧ get_group repo c = Ok g ∧
               recurse g = Some (Ok zs) ∧ y ∈ zs).
Proof.
  revert ys. induction todo as [|c todo IH]; intros ys; simpl.
  - intros [= <-]. split; intros ? H; by apply elem_of_nil in H.
  - case_bool_decide as Hv; [|done].
    destruct (get_group repo c) as [g|[]] eqn:Hget; try done.
    destruct (recurse g) as [[zs|]|] eqn:Hrec; try done.
    destruct (visit todo) as [[more|]|] eqn:Hrest; try done.
    intros [= <-]. destruct (IH more eq_refl) as [IH1 IH2]. split.
    + intros c' [->|Hc']%elem_of_cons.
      * split; [done|]. exists g, zs. split_and!; [done..|].
        intros ??. apply elem_of_app. by left.
      * destruct (IH1 c' Hc') as (? & g' & zs' & ? & ? & Hsub).
        split; [done|]. exists g', zs'. split_and!; [done..|].
        intros ??. apply elem_of_app. right. by apply Hsub.
    + intros y [Hy|Hy]%elem_of_app.
      * exists c, g, zs. split_and!; [apply list_elem_of_here|done..].
      * destruct (IH2 y Hy) as (c' & g' & zs' & ? & ? & ? & ?).
        exists c', g', zs'. split_and!; [by apply list_elem_of_further|done..].
Qed.

Lemma visit_names_Raise (todo : list string) (e : exn) :
  visit todo = Some (Raise e) →
  ∃ c, c ∈ todo ∧
    ((c ∈ visited ∧
      e = RepositoryError (SubgroupLoop c (_build_error_chain c self_name visited)))
     ∨ ((c ∉ visited) ∧ get_group repo c = Raise (NoSuchGroup c) ∧
        e = RepositoryError (SubgroupNotFound self_name c))
     ∨ ((c ∉ visited) ∧ ∃ g, get_group repo c = Ok g ∧ recurse g = Some (Raise e))).
Proof.
  induction todo as [|c todo IH]; simpl; [done|].
  case_bool_decide as Hv.
  - destruct (get_group repo c) as [g|e'] eqn:Hget.
    + destruct (recurse g) as [[zs|e']|] eqn:Hrec; try done.
      * destruct (visit todo) as [[more|e']|] eqn:Hrest; try done.
        intros [= <-]. destruct (IH eq_refl) as (c' & Hc' & H).
        exists c'. split; [by apply list_elem_of_further|done].
      * intros [= <-]. exists c. split; [apply list_elem_of_here|].
        right; right. eauto.
    + destruct (get_group_Raise _ _ _ Hget) as [-> _].
      intros [= <-]. exists c. split; [apply list_elem_of_here|].
      right; left. done.
  - intros [= <-]. exists c. split; [apply list_elem_of_here|].
    left. done.
Qed.

Lemma visit_names_returns (todo : list string) :
  (∀ c g, c ∈ todo → c ∉ visited → get_group repo c = Ok g →
          recurse g ≠ None) →
  visit todo ≠ None.
Proof.
  induction todo as [|c todo IH]; intros Hrec; simpl; [done|].
  case_bool_decide as Hv; [|done].
  destruct (get_group repo c) as [g|[]] eqn:Hget; try done.
  pose proof (Hrec c g (list_elem_of_here _ _) Hv Hget) as Hg.
  destruct (recurse g) as [[zs|]|]; try done.
  assert (visit todo ≠ None) as Hrest.
  { apply IH. intros c' g' ?. apply Hrec. by apply list_elem_of_further. }
  destruct (visit todo) as [[more|]|]; done.
Qed.

End VisitNames.

(** More stack never changes what a completed loop computed. *)
Lemma visit_names_mono (repo : Repository)
    (rec1 rec2 : Group → option (result (list string)))
    (self_name : string) (visited todo : list string) (r : result (list string)) :
  (∀ g r', rec1 g = Some r' → rec2 g = Some r') →
  visit_names repo rec1 self_name visited todo = Some r →
  visit_names repo rec2 self_name visited todo = Some r.
Proof.
  intros Hrec. revert r. induction todo as [|c todo IH]; intros r; simpl; [done|].
  case_bool_decide; [|done].
  destruct (get_group repo c) as [g|[]]; try done.
  destruct (rec1 g) as [[zs|e]|] eqn:H1; [| |done].
  - rewrite (Hrec _ _ H1).
    destruct (visit_names repo rec1 _ _ todo) as [r1|]; [|done].
    rewrite (IH r1 eq_refl). done.
  - rewrite (Hrec _ _ H1). done.
Qed.

(** ** The recursive traversal *)

Section Traversal.

Variable re_search : Pattern → string → bool.
Variable set_iter : list string → list string.

(** Iterating [set(l)] enumerates the elements of [l]. *)
Hypothesis set_iter_elem : ∀ l x, x ∈ set_iter l ↔ x ∈ l.

Variable repo : Repository.

Local Abbreviation check := (_check_subgroup_names re_search set_iter).
Local Abbreviation edge := (subgroup_edge re_search repo).
Local Abbreviation cands := (candidate_names re_search set_iter repo).

Lemma candidate_edge (g : Group) (c : string) :
  get_group repo (name g) = Ok g → c ∈ cands g ↔ edge (name g) c.
Proof.
  intros Hg. unfold candidate_names, subgroup_edge.
  rewrite set_iter_elem, elem_of_app. split.
  - intros H. by exists g.
  - intros (g' & Hg' & H). rewrite Hg in Hg'. by injection Hg' as <-.
Qed.

Lemma check_unfold (d : nat) (g : Group) (v : list string) :
  check (S d) repo g v =
  match visit_names repo (λ group, check d repo group (v ++ [name g]))
          (name g) v (cands g) with
  | Some (Ok yielded) =>
      Some (Ok (yielded ++ if bool_decide (name g ∉ v) then [name g] else []))
  | other => other
  end.
Proof. reflexivity. Qed.

(** A traversal that fits into [d] frames computes the same with more. *)
Lemma check_mono (d d' : nat) (g : Group) (v : list string)
    (r : result (list string)) :
  d ≤ d' → check d repo g v = Some r → check d' repo g v = Some r.
Proof.
  revert d' g v r. induction d as [|d IH]; intros d' g v r Hle; [done|].
  destruct d' as [|d']; [lia|]. rewrite !check_unfold.
  destruct (visit_names repo (λ group, check d repo group _) _ _ _)
    as [r1|] eqn:Hv; [|done].
  erewrite visit_names_mono; [done| |exact Hv].
  intros g' r' H. simpl. apply IH; [lia|done].
Qed.

Lemma tc_first_step (a b : string) :
  tc edge a b → ∃ c, edge a c ∧ (b = c ∨ tc edge c b).
Proof. inversion 1; subst; eauto. Qed.

(** A traversal that returns has met no loop below its group. *)
Lemma check_Ok_acyclic (d : nat) (g : Group) (v ys : list string) :
  get_group repo (name g) = Ok g →
  check d repo g v = Some (Ok ys) →
  ∀ b, rtc edge (name g) b → ¬ tc edge b b.
Proof.
  revert g v ys. induction d as [|d IH]; intros g v ys Hg Hok b Hreach Hcyc; [done|].
  rewrite check_unfold in Hok.
  destruct (visit_names _ _ _ _ _) as [[zs|]|] eqn:Hvisit; try done.
  apply visit_names_Ok in Hvisit as [Hc _].
  assert (∃ c, edge (name g) c ∧ rtc edge c b) as (c & Hedge & Hcb).
  { apply rtc_inv in Hreach as [<-|(c & ? & ?)]; [|by eauto].
    destruct (tc_first_step _ _ Hcyc) as (c & ? & [Heq|?]);
      exists c; split; [done|rewrite <- Heq; apply rtc_refl|done|by apply tc_rtc]. }
  apply candidate_edge in Hedge; [|done].
  destruct (Hc c Hedge) as (_ & g' & zs' & Hget & Hrec & _).
  destruct (get_group_Ok _ _ _ Hget) as [Hname _].
  eapply (IH g' _ zs'); [by eapply get_group_registered|exact Hrec| |exact Hcyc].
  by rewrite Hname.
Qed.

(** What a returning traversal yields: every name below its group, and
    the group's own name unless it is on the path already. *)
Lemma check_Ok_yields (d : nat) (g : Group) (v ys : list string) :
  get_group repo (name g) = Ok g →
  check d repo g v = Some (Ok ys) →
  ∀ b, b ∈ ys ↔ tc edge (name g) b ∨ (b = name g ∧ name g ∉ v).
Proof.
  revert g v ys. induction d as [|d IH]; intros g v ys Hg Hok b; [done|].
  pose proof (check_Ok_acyclic _ _ _ _ Hg Hok) as Hacyc.
  rewrite check_unfold in Hok.
  destruct (visit_names _ _ _ _ _) as [[zs|]|] eqn:Hvisit; try done.
  injection Hok as <-.
  apply visit_names_Ok in Hvisit as [Hc Hy].
  rewrite elem_of_app. split.
  - intros [Hb|Hb].
    + destruct (Hy b Hb) as (c & g' & zs' & Hcand & Hget & Hrec & Hbz).
      destruct (get_group_Ok _ _ _ Hget) as [Hname _].
      apply candidate_edge in Hcand; [|done].
      apply (IH g' _ zs' (get_group_registered _ _ _ Hget) Hrec) in Hbz.
      rewrite Hname in Hbz. left.
      destruct Hbz as [Htc|[-> _]]; [by eapply tc_l|by apply tc_once].
    + case_bool_decide; [|by apply elem_of_nil in Hb].
      apply list_elem_of_singleton in Hb as ->. by right.
  - intros [Htc|[-> Hv]].
    + left. destruct (tc_first_step _ _ Htc) as (c & Hedge & Hcb).
      assert (c ≠ name g) as Hne.
      { intros ->. apply (Hacyc (name g)); [apply rtc_refl|by apply tc_once]. }
      apply candidate_edge in Hedge; [|done].
      destruct (Hc c Hedge) as (Hcv & g' & zs' & Hget & Hrec & Hsub).
      destruct (get_group_Ok _ _ _ Hget) as [Hname _].
      apply Hsub.
      apply (IH g' _ zs' (get_group_registered _ _ _ Hget) Hrec).
      rewrite Hname. destruct Hcb as [->|?]; [right|by left].
      split; [done|]. rewrite elem_of_app, list_elem_of_singleton. tauto.
    + right. rewrite bool_decide_eq_true_2 by done. apply list_elem_of_here.
Qed.

(** Every yielded name belongs to a registered group, the group's own
    name apart. *)
Lemma check_Ok_registered (d : nat) (g : Group) (v ys : list string) :
  check d repo g v = Some (Ok ys) →
  ∀ b, b ∈ ys → (∃ g', get_group repo b = Ok g') ∨ (b = name g ∧ name g ∉ v).
Proof.
  revert g v ys. induction d as [|d IH]; intros g v ys Hok b; [done|].
  rewrite check_unfold in Hok.
  destruct (visit_names _ _ _ _ _) as [[zs|]|] eqn:Hvisit; try done.
  injection Hok as <-.
  apply visit_names_Ok in Hvisit as [_ Hy].
  intros [Hb|Hb]%elem_of_app.
  - left. destruct (Hy b Hb) as (c & g' & zs' & _ & Hget & Hrec & Hbz).
    destruct (IH g' _ zs' Hrec b Hbz) as [?|[-> _]]; [done|].
    exists g'. by eapply get_group_registered.
  - case_bool_decide; [|by apply elem_of_nil in Hb].
    apply list_elem_of_singleton in Hb as ->. by right.
Qed.

(** What a raising traversal raises, when every name on the path leads to
    the current group: a dangling subgroup name below the group, or a
    loop through a name below the group, with a chain that starts and
    ends with the repeated name. *)
Lemma check_Raise (d : nat) (g : Group) (v : list string) (e : exn) :
  get_group repo (name g) = Ok g →
  (∀ a, a ∈ v → rtc edge a (name g)) →
  check d repo g v = Some (Raise e) →
  (∃ n s, e = RepositoryError (SubgroupNotFound n s) ∧
          rtc edge (name g) n ∧ edge n s ∧
          get_group repo s = Raise (NoSuchGroup s))
  ∨ (∃ n chain, e = RepositoryError (SubgroupLoop n chain) ∧
                rtc edge (name g) n ∧ tc edge n n ∧
                head chain = Some n ∧ last chain = Some n).
Proof.
  revert g v. induction d as [|d IH]; intros g v Hg Hpath Hraise; [done|].
  rewrite check_unfold in Hraise.
  destruct (visit_names _ _ _ _ _) as [[zs|e']|] eqn:Hvisit; try done.
  injection Hraise as ->.
  apply visit_names_Raise in Hvisit as (c & Hcand & Hcase).
  apply candidate_edge in Hcand; [|done].
  destruct Hcase as [[Hcv ->]|[(Hcv & Hget & ->)|(Hcv & g' & Hget & Hrec)]].
  - right. exists c, (_build_error_chain c (name g) v). split_and!.
    + done.
    + by apply rtc_once.
    + eapply tc_rtc_l; [by apply Hpath|by apply tc_once].
    + unfold _build_error_chain.
      destruct (chain_foldl_head c v Hcv) as [tl ->]. done.
    + unfold _build_error_chain. by rewrite last_snoc.
  - left. exists (name g), c. split_and!; [done|apply rtc_refl|done..].
  - destruct (get_group_Ok _ _ _ Hget) as [Hname _].
    assert (∀ a, a ∈ v ++ [name g] → rtc edge a (name g')) as Hpath'.
    { rewrite Hname. intros a [Ha| ->%list_elem_of_singleton]%elem_of_app.
      - eapply rtc_r; [by apply Hpath|done].
      - by apply rtc_once. }
    destruct (IH g' _ (get_group_registered _ _ _ Hget) Hpath' Hrec)
      as [(n & s & -> & Hreach & ? & ?)|(n & chain & -> & Hreach & ? & ? & ?)];
      rewrite Hname in Hreach; [left; exists n, s|right; exists n, chain];
      split_and!; try done; by eapply rtc_l.
Qed.

(** The traversal of a group on a path [v] completes within any stack
    that exceeds twice the number of registered names off the path, plus
    one when the group itself is not on the path yet. *)
Lemma check_returns (d : nat) (g : Group) (v : list string) :
  2 * length (filter (λ n, n ∉ v ++ [name g]) (name <$> groups repo))
    + (if bool_decide (name g ∈ v) then 0 else 1) < d →
  check d repo g v ≠ None.
Proof.
  revert g v. induction d as [|d IH]; intros g v Hd; [lia|].
  rewrite check_unfold.
  assert (visit_names repo (λ group, check d repo group (v ++ [name g]))
            (name g) v (cands g) ≠ None) as Hvisit.
  { apply visit_names_returns. intros c g' _ Hcv Hget.
    destruct (get_group_Ok _ _ _ Hget) as [Hname Hg'].
    apply IH. rewrite Hname.
    destruct (decide (c = name g)) as [->|Hne].
    - rewrite remaining_same by (apply elem_of_app; right; apply list_elem_of_here).
      rewrite (bool_decide_eq_true_2 (name g ∈ v ++ [name g]))
        by (apply elem_of_app; right; apply list_elem_of_here).
      rewrite (bool_decide_eq_false_2 (name g ∈ v)) in Hd by done. lia.
    - assert (c ∉ v ++ [name g]) as Hc.
      { rewrite elem_of_app, list_elem_of_singleton. tauto. }
      assert (c ∈ (name <$> groups repo)) as Hcreg.
      { apply list_elem_of_fmap. exists g'. by rewrite Hname. }
      pose proof (remaining_lt _ _ _ Hcreg Hc).
      rewrite (bool_decide_eq_false_2 (c ∈ v ++ [name g])) by done.
      destruct (bool_decide (name g ∈ v)); lia. }
  destruct (visit_names _ _ _ _ _) as [[zs|e]|]; done.
Qed.

End Traversal.

(** ** Sample runs *)

Lemma insertion_order_elem (l : list string) (x : string) :
  x ∈ insertion_order l ↔ x ∈ l.
Proof. apply elem_of_remove_dups. Qed.

Example web_immediate_subgroups :
  name <$> match immediate_subgroups anchored_search insertion_order web_repo web with
           | Ok gs => gs
           | Raise _ => []
           end
  = ["cache"; "db-primary"; "db-replica"].
Proof. vm_compute. reflexivity. Qed.

Example loop_repo_chain :
  subgroups anchored_search insertion_order loop_repo group_A
  = Some (Raise (RepositoryError (SubgroupLoop "A" ["A"; "B"; "C"; "A"]))).
Proof. vm_compute. reflexivity. Qed.

(** ** Pattern-derived subgroups *)

(** C4: the pattern-derived subgroup names of [G] are the names of the
    registry's groups other than the object [G] itself that match one of
    [G]'s compiled patterns; in a registry with unique names that holds
    [G], the name of [G] is never among them, also when it matches one of
    [G]'s own patterns. *)
Theorem pattern_subgroups_exclude_self (re_search : Pattern → string → bool)
    (repo : Repository) (G : Group) :
  (∀ n, n ∈ _subgroup_names_from_patterns re_search repo G ↔
        ∃ g p, g ∈ groups repo ∧ oid g ≠ oid G ∧ name g = n ∧
               p ∈ immediate_subgroup_patterns G ∧ re_search p n = true) ∧
  (unique_names repo → G ∈ groups repo →
   name G ∉ _subgroup_names_from_patterns re_search repo G).
Proof.
  assert (∀ n, n ∈ _subgroup_names_from_patterns re_search repo G ↔
        ∃ g p, g ∈ groups repo ∧ oid g ≠ oid G ∧ name g = n ∧
               p ∈ immediate_subgroup_patterns G ∧ re_search p n = true) as Hchar.
  { intros n. unfold _subgroup_names_from_patterns. rewrite list_elem_of_bind. split.
    - intros (p & Hn & Hp). apply list_elem_of_bind in Hn as (g & Hn & Hg).
      destruct (re_search p (name g)) eqn:Hs; simpl in Hn;
        [|by apply elem_of_nil in Hn].
      unfold Group_ne, Group_eq in Hn. case_bool_decide as Hid; simpl in Hn;
        [by apply elem_of_nil in Hn|].
      apply list_elem_of_singleton in Hn as ->. by exists g, p.
    - intros (g & p & Hg & Hid & <- & Hp & Hs). exists p. split; [|done].
      apply list_elem_of_bind. exists g. split; [|done].
      rewrite Hs. unfold Group_ne, Group_eq.
      rewrite bool_decide_eq_false_2 by done. apply list_elem_of_here. }
  split; [exact Hchar|].
  intros Hnd HG Hin. apply Hchar in Hin as (g & p & Hg & Hid & Hname & _).
  apply Hid. f_equal.
  pose proof (get_group_unique _ _ Hnd Hg) as H1.
  pose proof (get_group_unique _ _ Hnd HG) as H2.
  rewrite Hname in H1. congruence.
Qed.

Lemma pattern_subgroups_exclude_self_witness :
  anchored_search {| pattern_source := "^db-" |} (name dbs) = true ∧
  (name dbs ∉ _subgroup_names_from_patterns anchored_search dbs_repo dbs) ∧
  _subgroup_names_from_patterns anchored_search dbs_repo dbs = ["db-primary"].
Proof.
  split; [reflexivity|]. split; [|reflexivity].
  apply (pattern_subgroups_exclude_self anchored_search dbs_repo dbs).
  - unfold unique_names. by_eval.
  - apply list_elem_of_here.
Defined.

(** ** The closure of an acyclic registry *)

Lemma rmap_Ok_names (repo : Repository) (l : list string) (gs : list Group) :
  rmap (get_group repo) l = Ok gs → name <$> gs = l.
Proof.
  revert gs. induction l as [|n l IH]; intros gs; simpl; [by intros [= <-]|].
  destruct (get_group repo n) as [g|] eqn:Hget; simpl; [|done].
  destruct (rmap (get_group repo) l) as [gs'|]; simpl; [|done].
  intros [= <-]. rewrite fmap_cons, (IH gs' eq_refl).
  by destruct (get_group_Ok _ _ _ Hget) as [-> _].
Qed.

Lemma rmap_Ok_total (repo : Repository) (l : list string) :
  (∀ n, n ∈ l → ∃ g, get_group repo n = Ok g) →
  ∃ gs, rmap (get_group repo) l = Ok gs.
Proof.
  induction l as [|n l IH]; intros Hl; simpl; [by eexists|].
  destruct (Hl n) as [g ->]; [apply list_elem_of_here|]. simpl.
  destruct IH as [gs ->]; [|by eexists].
  intros n' ?. apply Hl. by apply list_elem_of_further.
Qed.

(** Whatever the root, the traversal fits into [stack_bound]. *)
Lemma root_within_stack_bound (re_search : Pattern → string → bool)
    (set_iter : list string → list string) (repo : Repository) (root : Group) :
  _check_subgroup_names re_search set_iter (stack_bound repo) repo root [name root]
  ≠ None.
Proof.
  apply check_returns.
  rewrite bool_decide_eq_true_2 by apply list_elem_of_here.
  pose proof (length_filter (λ n, n ∉ [name root] ++ [name root])
                (name <$> groups repo)) as Hle.
  rewrite length_fmap in Hle. unfold stack_bound. lia.
Qed.

Lemma root_yields_registered (re_search : Pattern → string → bool)
    (set_iter : list string → list string) (repo : Repository) (root : Group)
    (d : nat) (ys : list string) :
  _check_subgroup_names re_search set_iter d repo root [name root] = Some (Ok ys) →
  ∀ n, n ∈ ys → ∃ g, get_group repo n = Ok g.
Proof.
  intros Hok n Hn.
  destruct (check_Ok_registered _ _ _ _ _ _ _ Hok n Hn) as [?|[_ Hv]]; [done|].
  exfalso. apply Hv, list_elem_of_here.
Qed.

(** C1: in a registry whose subgroup relation is acyclic, the names of
    the groups [subgroups] produces for a root never contain the root's
    own name and are exactly the names reachable from the root by one or
    more subgroup edges; and when every subgroup name resolves, the
    closure is produced. *)
Theorem subgroups_acyclic_closure (re_search : Pattern → string → bool)
    (set_iter : list string → list string) (repo : Repository) (root : Group) :
  (∀ l x, x ∈ set_iter l ↔ x ∈ l) →
  get_group repo (name root) = Ok root →
  acyclic re_search repo →
  (resolvable re_search repo →
   ∃ gs, subgroups re_search set_iter repo root = Some (Ok gs)) ∧
  (∀ gs, subgroups re_search set_iter repo root = Some (Ok gs) →
     (name root ∉ (name <$> gs)) ∧
     ∀ n, n ∈ (name <$> gs) ↔ tc (subgroup_edge re_search repo) (name root) n).
Proof.
  intros Hset Hroot Hacyc. split.
  - intros Hres. unfold subgroups.
    pose proof (root_within_stack_bound re_search set_iter repo root) as Hret.
    destruct (_check_subgroup_names _ _ _ _ _ _) as [[ys|e]|] eqn:Hcheck.
    + destruct (rmap_Ok_total repo (set_iter ys)) as [gs Hgs]; [|by exists gs; rewrite Hgs].
      intros n Hn. apply (proj1 (Hset _ _)) in Hn.
      exact (root_yields_registered _ _ _ _ _ _ Hcheck n Hn).
    + exfalso.
      apply (check_Raise _ _ Hset) in Hcheck as
        [(n & s & _ & _ & Hedge & Hget)|(n & chain & _ & _ & Hcyc & _)]; [| |done|].
      * destruct (Hres _ _ Hedge) as [g Hg]. congruence.
      * by apply (Hacyc n).
      * intros a ->%list_elem_of_singleton. apply rtc_refl.
    + done.
  - intros gs. unfold subgroups.
    destruct (_check_subgroup_names _ _ _ _ _ _) as [[ys|e]|] eqn:Hcheck; try done.
    intros [= Hgs]. apply rmap_Ok_names in Hgs. rewrite Hgs.
    pose proof (check_Ok_yields _ _ Hset _ _ _ _ _ Hroot Hcheck) as Hy.
    assert (∀ n, n ∈ set_iter ys ↔ tc (subgroup_edge re_search repo) (name root) n) as Hn.
    { intros n. rewrite Hset, Hy. split; [|by left].
      intros [?|[_ Hv]]; [done|]. exfalso. apply Hv, list_elem_of_here. }
    split; [|exact Hn]. rewrite Hn. apply Hacyc.
Qed.

Lemma subgroups_acyclic_closure_witness :
  ∃ gs, subgroups anchored_search insertion_order web_repo web = Some (Ok gs) ∧
        name <$> gs = ["cache"; "db-primary"; "db-replica"] ∧
        (name web ∉ (name <$> gs)) ∧
        ∀ n, n ∈ (name <$> gs) ↔
             tc (subgroup_edge anchored_search web_repo) (name web) n.
Proof.
  assert ("web" ∉ ["cache"; "db-primary"; "db-replica"]) as Hweb by by_eval.
  assert (∀ a b, subgroup_edge anchored_search web_repo a b →
                 a = "web" ∧ b ∈ ["cache"; "db-primary"; "db-replica"]) as Hedges.
  { intros a b (g & Hget & Hb). destruct (get_group_Ok _ _ _ Hget) as [<- Hg].
    unfold web_repo in Hg. simpl in Hg.
    repeat (apply elem_of_cons in Hg as [->|Hg]); [..|by apply elem_of_nil in Hg];
      vm_compute in Hb; destruct Hb as [Hb|Hb];
      try (by apply elem_of_nil in Hb); (split; [reflexivity|set_solver]). }
  assert (acyclic anchored_search web_repo) as Hacyc.
  { intros n Hcyc. apply tc_first_step in Hcyc as (c & Hnc & Hrest).
    destruct (Hedges _ _ Hnc) as [-> Hc].
    assert (c = "web") as ->; [|done].
    destruct Hrest as [<-|Htc]; [done|].
    apply tc_first_step in Htc as (c' & Hcc' & _).
    by destruct (Hedges _ _ Hcc') as [-> _]. }
  assert (resolvable anchored_search web_repo) as Hres.
  { intros a b Hab. destruct (Hedges _ _ Hab) as [_ Hb].
    repeat (apply elem_of_cons in Hb as [->|Hb]); [..|by apply elem_of_nil in Hb];
      eexists; reflexivity. }
  destruct (subgroups_acyclic_closure anchored_search insertion_order web_repo web
              insertion_order_elem eq_refl Hacyc) as [Hreturns Hclosure].
  destruct (Hreturns Hres) as [gs Hgs]. exists gs.
  split; [exact Hgs|]. split; [|exact (Hclosure gs Hgs)].
  vm_compute in Hgs. by injection Hgs as <-.
Defined.

(** C10: with the registry held fixed, every name the traversal seeded
    with the root's own name yields is the name of a group of the
    registry, so the lookups [subgroups] makes for the collected names
    find their groups whenever the traversal completed without error. *)
Theorem yielded_names_are_registered (re_search : Pattern → string → bool)
    (set_iter : list string → list string) (repo : Repository) (root : Group)
    (ys : list string) :
  (∀ l x, x ∈ set_iter l ↔ x ∈ l) →
  _check_subgroup_names re_search set_iter (stack_bound repo) repo root [name root]
    = Some (Ok ys) →
  (∀ n, n ∈ ys → ∃ g, g ∈ groups repo ∧ name g = n ∧ get_group repo n = Ok g) ∧
  ∃ gs, subgroups re_search set_iter repo root = Some (Ok gs) ∧
        name <$> gs = set_iter ys.
Proof.
  intros Hset Hcheck.
  pose proof (root_yields_registered _ _ _ _ _ _ Hcheck) as Hreg. split.
  - intros n Hn. destruct (Hreg n Hn) as [g Hg].
    destruct (get_group_Ok _ _ _ Hg) as [? ?]. by exists g.
  - unfold subgroups. rewrite Hcheck.
    destruct (rmap_Ok_total repo (set_iter ys)) as [gs Hgs].
    { intros n Hn. apply Hreg. by apply Hset. }
    exists gs. rewrite Hgs. split; [done|]. exact (rmap_Ok_names _ _ _ Hgs).
Qed.

Lemma yielded_names_are_registered_witness :
  _check_subgroup_names anchored_search insertion_order (stack_bound web_repo)
    web_repo web [name web] = Some (Ok ["cache"; "db-primary"; "db-replica"]) ∧
  ∃ gs, subgroups anchored_search insertion_order web_repo web = Some (Ok gs) ∧
        name <$> gs = insertion_order ["cache"; "db-primary"; "db-replica"].
Proof.
  assert (_check_subgroup_names anchored_search insertion_order (stack_bound web_repo)
            web_repo web [name web] = Some (Ok ["cache"; "db-primary"; "db-replica"]))
    as Hrun by (vm_compute; reflexivity).
  split; [exact Hrun|].
  exact (proj2 (yielded_names_are_registered anchored_search insertion_order web_repo
                  web _ insertion_order_elem Hrun)).
Defined.

(** ** Loops *)

(** The claim of C2 fails when a dangling subgroup name is met before the
    loop: [X] lists the unknown [M] and [A], and [A] lists [X]; the loop
    [X -> A -> X] is there, yet with [M] iterated first the error is the
    missing-group one. *)
Lemma loop_hidden_by_missing_group :
  tc (subgroup_edge anchored_search dangling_repo) (name group_X) (name group_X) ∧
  subgroups anchored_search insertion_order dangling_repo group_X
  = Some (Raise (RepositoryError (SubgroupNotFound "X" "M"))).
Proof.
  split; [|vm_compute; reflexivity].
  apply (tc_l _ _ "A"); [|apply tc_once].
  - exists group_X. split; [reflexivity|]. left. by_eval.
  - exists (sample_group 1 "A" ["X"] []). split; [reflexivity|]. left. by_eval.
Qed.

(** C2 (amended): when a loop of the subgroup relation can be reached
    from [X], resolving [X]'s subgroups never returns a result and never
    runs forever: it raises a configuration error, which is the loop
    error, with a chain that starts and ends with the repeated name,
    unless a subgroup name without a group was met first; with every
    subgroup name resolving it is always the loop error. *)
Theorem subgroups_loop_raises (re_search : Pattern → string → bool)
    (set_iter : list string → list string) (repo : Repository) (X : Group)
    (c : string) :
  (∀ l x, x ∈ set_iter l ↔ x ∈ l) →
  get_group repo (name X) = Ok X →
  rtc (subgroup_edge re_search repo) (name X) c →
  tc (subgroup_edge re_search repo) c c →
  ∃ msg, subgroups re_search set_iter repo X = Some (Raise (RepositoryError msg)) ∧
    match msg with
    | SubgroupLoop n chain =>
        head chain = Some n ∧ last chain = Some n ∧
        tc (subgroup_edge re_search repo) n n
    | SubgroupNotFound g s =>
        subgroup_edge re_search repo g s ∧
        get_group repo s = Raise (NoSuchGroup s) ∧
        ¬ resolvable re_search repo
    | InvalidGroupName _ => False
    end.
Proof.
  intros Hset HX Hreach Hcyc. unfold subgroups.
  pose proof (root_within_stack_bound re_search set_iter repo X) as Hret.
  destruct (_check_subgroup_names _ _ _ _ _ _) as [[ys|e]|] eqn:Hcheck.
  - exfalso. by apply (check_Ok_acyclic _ _ Hset _ _ _ _ _ HX Hcheck c).
  - apply (check_Raise _ _ Hset) in Hcheck as
      [(n & s & -> & _ & Hedge & Hget)|(n & chain & -> & _ & Hloop & Hhd & Hlast)];
      [| |done|].
    + exists (SubgroupNotFound n s). split; [done|]. split_and!; [done..|].
      intros Hres. destruct (Hres _ _ Hedge) as [g Hg]. congruence.
    + by exists (SubgroupLoop n chain).
    + intros a ->%list_elem_of_singleton. apply rtc_refl.
  - done.
Qed.

Lemma subgroups_loop_raises_witness :
  ∃ msg, subgroups anchored_search insertion_order loop_repo group_A
         = Some (Raise (RepositoryError msg)) ∧
         msg = SubgroupLoop "A" ["A"; "B"; "C"; "A"].
Proof.
  assert (tc (subgroup_edge anchored_search loop_repo) "A" "A") as Hloop.
  { apply (tc_l _ _ "B"); [|apply (tc_l _ _ "C"); [|apply tc_once]].
    - exists group_A. split; [reflexivity|]. left. by_eval.
    - exists (sample_group 1 "B" ["C"] []). split; [reflexivity|]. left. by_eval.
    - exists (sample_group 2 "C" ["A"] []). split; [reflexivity|]. left. by_eval. }
  destruct (subgroups_loop_raises anchored_search insertion_order loop_repo group_A "A"
              insertion_order_elem eq_refl (rtc_refl _ _) Hloop) as (msg & Hrun & _).
  exists msg. split; [exact Hrun|].
  vm_compute in Hrun. by injection Hrun as <-.
Defined.

(** ** Termination and stack depth *)

(** The claim of C5 fails on its bound: with two groups [R -> G] and
    [G -> G], the traversal of [R] does not fit into two frames; the
    third frame, [G] entered from [G], is the one that detects the loop. *)
Lemma depth_exceeds_group_count :
  length (groups self_loop_repo) = 2 ∧
  _check_subgroup_names anchored_search insertion_order 2 self_loop_repo group_R ["R"]
  = None ∧
  _check_subgroup_names anchored_search insertion_order 3 self_loop_repo group_R ["R"]
  = Some (Raise (RepositoryError (SubgroupLoop "G" ["G"; "G"; "G"]))).
Proof. split_and!; vm_compute; reflexivity. Qed.

(** Where no group lists itself, every frame takes a new name off the
    registry. *)
Lemma check_returns_irreflexive (re_search : Pattern → string → bool)
    (set_iter : list string → list string) (repo : Repository) :
  (∀ l x, x ∈ set_iter l ↔ x ∈ l) →
  (∀ n, ¬ subgroup_edge re_search repo n n) →
  ∀ d g v,
    get_group repo (name g) = Ok g →
    length (filter (λ n, n ∉ v ++ [name g]) (name <$> groups repo)) < d →
    _check_subgroup_names re_search set_iter d repo g v ≠ None.
Proof.
  intros Hset Hirr. induction d as [|d IH]; intros g v Hg Hd; [lia|].
  rewrite check_unfold.
  assert (visit_names repo
            (λ group, _check_subgroup_names re_search set_iter d repo group
                        (v ++ [name g]))
            (name g) v (candidate_names re_search set_iter repo g) ≠ None) as Hvisit.
  { apply visit_names_returns. intros c g' Hcand Hcv Hget.
    destruct (get_group_Ok _ _ _ Hget) as [Hname Hg'].
    apply IH; [by eapply get_group_registered|]. rewrite Hname.
    apply (candidate_edge _ _ Hset) in Hcand; [|done].
    assert (c ∉ v ++ [name g]) as Hc.
    { rewrite elem_of_app, list_elem_of_singleton. intros [?| ->]; [done|].
      by apply (Hirr (name g)). }
    assert (c ∈ (name <$> groups repo)) as Hcreg.
    { apply list_elem_of_fmap. exists g'. by rewrite Hname. }
    pose proof (remaining_lt _ _ _ Hcreg Hc). lia. }
  destruct (visit_names _ _ _ _ _) as [[zs|e]|]; done.
Qed.

(** *** One more frame than groups *)

Section Depth.

Variable re_search : Pattern → string → bool.
Variable set_iter : list string → list string.
Variable repo : Repository.

Local Abbreviation check := (_check_subgroup_names re_search set_iter).
Local Abbreviation cands := (candidate_names re_search set_iter repo).

(** A loop that returned keeps returning the same on a path with the
    same names and with calls that return at least as often. *)
Lemma visit_names_Ok_ext (rec1 rec2 : Group → option (result (list string)))
    (self_name : string) (v1 v2 todo ys : list string) :
  (∀ x, x ∈ v1 ↔ x ∈ v2) →
  (∀ c g zs, c ∈ todo → get_group repo c = Ok g →
             rec1 g = Some (Ok zs) → rec2 g = Some (Ok zs)) →
  visit_names repo rec1 self_name v1 todo = Some (Ok ys) →
  visit_names repo rec2 self_name v2 todo = Some (Ok ys).
Proof.
  intros Hv. revert ys. induction todo as [|c todo IH]; intros ys Hrec; simpl; [done|].
  case_bool_decide as H1; [|done].
  rewrite bool_decide_eq_true_2 by (by rewrite <- Hv).
  destruct (get_group repo c) as [g|[]] eqn:Hget; try done.
  destruct (rec1 g) as [[zs|]|] eqn:Hg; try done.
  rewrite (Hrec c g zs (list_elem_of_here _ _) Hget Hg).
  destruct (visit_names repo rec1 self_name v1 todo) as [[more|]|] eqn:Hrest; try done.
  rewrite (IH more); [done| |done].
  intros c' g' zs' ?. apply Hrec. by apply list_elem_of_further.
Qed.

(** The loop stops at the first name that is on the path, when the
    names before it were entered and returned. *)
Lemma visit_names_stops (recurse : Group → option (result (list string)))
    (self_name : string) (visited pre post : list string) (c : string) :
  (∀ c', c' ∈ pre →
         (c' ∉ visited) ∧
         ∃ g zs, get_group repo c' = Ok g ∧ recurse g = Some (Ok zs)) →
  c ∈ visited →
  ∃ e, visit_names repo recurse self_name visited (pre ++ c :: post) = Some (Raise e).
Proof.
  intros Hpre Hc. induction pre as [|c0 pre IH]; simpl.
  - rewrite bool_decide_eq_false_2 by (by intros ?). by eexists.
  - destruct (Hpre c0 (list_elem_of_here _ _)) as (Hc0 & g & zs & -> & ->).
    rewrite bool_decide_eq_true_2 by done.
    destruct IH as [e ->]; [|by eexists].
    intros c' ?. apply Hpre. by apply list_elem_of_further.
Qed.

(** The loop returns when each call it makes does, given that the
    calls before it returned a result. *)
Lemma visit_names_returns_in_order (recurse : Group → option (result (list string)))
    (self_name : string) (visited todo : list string) :
  (∀ pre c post g,
     todo = pre ++ c :: post →
     (∀ c', c' ∈ pre →
            (c' ∉ visited) ∧
            ∃ g' zs, get_group repo c' = Ok g' ∧ recurse g' = Some (Ok zs)) →
     c ∉ visited → get_group repo c = Ok g → recurse g ≠ None) →
  visit_names repo recurse self_name visited todo ≠ None.
Proof.
  induction todo as [|c todo IH]; intros Hrec; simpl; [done|].
  case_bool_decide as Hv; [|done].
  destruct (get_group repo c) as [g|[]] eqn:Hget; try done.
  assert (recurse g ≠ None) as Hg.
  { apply (Hrec [] c todo g); [done| |done..]. by intros ? ?%elem_of_nil. }
  destruct (recurse g) as [[zs|]|] eqn:Hrun; try done.
  assert (visit_names repo recurse self_name visited todo ≠ None) as Hrest.
  { apply IH. intros pre c' post g' -> Hpre. apply (Hrec (c :: pre) c' post g'); [done|].
    intros c'' [->|Hc'']%elem_of_cons; [by eauto|by apply Hpre]. }
  destruct (visit_names repo recurse self_name visited todo) as [[more|]|]; done.
Qed.

(** A traversal that returns does not care for the order of the path or
    for repetitions on it. *)
Lemma check_Ok_same_names (d : nat) (g : Group) (v v' ys : list string) :
  (∀ x, x ∈ v ↔ x ∈ v') →
  check d repo g v = Some (Ok ys) → check d repo g v' = Some (Ok ys).
Proof.
  revert g v v' ys. induction d as [|d IH]; intros g v v' ys Hv; [done|].
  rewrite !check_unfold.
  destruct (visit_names repo _ (name g) v (cands g)) as [[zs|]|] eqn:Hvisit; try done.
  erewrite (visit_names_Ok_ext _ _ _ v v'); [| exact Hv | | exact Hvisit].
  - by rewrite (bool_decide_ext (name g ∉ v) (name g ∉ v')) by (by rewrite Hv).
  - intros c g' zs' _ _. apply IH. intros x. rewrite !elem_of_app, Hv. done.
Qed.

(** A group entered by a traversal that returns does not list itself. *)
Lemma check_Ok_not_own (d : nat) (g : Group) (v ys : list string) :
  get_group repo (name g) = Ok g →
  check d repo g v = Some (Ok ys) → name g ∉ cands g.
Proof.
  intros Hg Hok Hown. destruct d as [|d]; [done|].
  rewrite check_unfold in Hok.
  destruct (visit_names repo _ (name g) v (cands g)) as [[zs|]|] eqn:Hvisit; try done.
  apply visit_names_Ok in Hvisit as [Hc _].
  destruct (Hc _ Hown) as (_ & g' & zs' & Hget & Hrec & _).
  rewrite Hg in Hget. injection Hget as <-.
  destruct d as [|d]; [done|]. rewrite check_unfold in Hrec.
  destruct (visit_names repo _ (name g) (v ++ [name g]) (cands g))
    as [[zs''|]|] eqn:Hvisit'; try done.
  apply visit_names_Ok in Hvisit' as [Hc' _].
  destruct (Hc' _ Hown) as [Hout _]. apply Hout, elem_of_app. right.
  apply list_elem_of_here.
Qed.

(** A traversal that returns enters every group once: it fits into as
    many frames as there are registered names off the path, its own
    apart, and one more. *)
Lemma check_Ok_frames (d : nat) (g : Group) (v ys : list string) :
  get_group repo (name g) = Ok g →
  check d repo g v = Some (Ok ys) →
  check (S (length (filter (λ n, n ∉ v ++ [name g]) (name <$> groups repo))))
    repo g v = Some (Ok ys).
Proof.
  revert g v ys. induction d as [|d IH]; intros g v ys Hg Hok; [done|].
  pose proof (check_Ok_not_own _ _ _ _ Hg Hok) as Hown.
  rewrite check_unfold in Hok. rewrite check_unfold.
  destruct (visit_names repo _ (name g) v (cands g)) as [[zs|]|] eqn:Hvisit; try done.
  pose proof (visit_names_Ok _ _ _ _ _ _ Hvisit) as [Hc _].
  erewrite (visit_names_Ok_ext _ _ _ v v); [exact Hok|done| |exact Hvisit].
  intros c g' zs' Hcand Hget Hrec.
  destruct (get_group_Ok _ _ _ Hget) as [Hname Hg'].
  destruct (Hc c Hcand) as [Hcv _].
  assert (c ∉ v ++ [name g]) as Hout.
  { rewrite elem_of_app, list_elem_of_singleton. intros [?| ->]; done. }
  assert (c ∈ (name <$> groups repo)) as Hreg.
  { apply list_elem_of_fmap. exists g'. by rewrite Hname. }
  pose proof (remaining_lt _ _ _ Hreg Hout) as Hlt.
  eapply check_mono; [|apply (IH g' _ zs' (get_group_registered _ _ _ Hget) Hrec)].
  rewrite Hname. lia.
Qed.

(** Every traversal fits into two frames more than there are registered
    names off the path, the group's own apart: the second entry of a
    group that lists itself meets only names that were entered and
    returned before, and then raises. *)
Lemma check_fits (d : nat) (g : Group) (v : list string) :
  get_group repo (name g) = Ok g →
  length (filter (λ n, n ∉ v ++ [name g]) (name <$> groups repo)) + 2 ≤ d →
  check d repo g v ≠ None.
Proof.
  revert g v. induction d as [|d IH]; intros g v Hg Hd; [lia|].
  rewrite check_unfold.
  assert (visit_names repo (λ group, check d repo group (v ++ [name g]))
            (name g) v (cands g) ≠ None) as Hvisit;
    [|by destruct (visit_names _ _ _ _ _) as [[zs|e]|]].
  apply visit_names_returns_in_order. intros pre c post g' Hsplit Hpre Hcv Hget.
  destruct (get_group_Ok _ _ _ Hget) as [Hname Hg'].
  assert (∀ c', c' ∈ (name <$> groups repo) → c' ∉ v ++ [name g] →
       length (filter (λ n, n ∉ (v ++ [name g]) ++ [c']) (name <$> groups repo))
       < length (filter (λ n, n ∉ v ++ [name g]) (name <$> groups repo))) as Hless.
  { intros c' ? ?. by apply remaining_lt. }
  destruct (decide (c = name g)) as [->|Hne].
  - (* the group enters itself *)
    rewrite Hg in Hget. injection Hget as <-.
    destruct (decide (name g ∈ pre)) as [Hin|Hfirst].
    { destruct (Hpre _ Hin) as (_ & g' & zs & Hget' & Hrun).
      rewrite Hg in Hget'. injection Hget' as <-. by rewrite Hrun. }
    destruct d as [|d]; [lia|]. rewrite check_unfold, Hsplit.
    destruct (visit_names_stops
                (λ group, check d repo group ((v ++ [name g]) ++ [name g]))
                (name g) (v ++ [name g]) pre post (name g)) as [e ->]; [| |done].
    + intros c' Hc'. destruct (Hpre c' Hc') as (Hc'v & g' & zs & Hget' & Hrun).
      destruct (get_group_Ok _ _ _ Hget') as [Hname' Hg''].
      assert (c' ∉ v ++ [name g]) as Hout.
      { rewrite elem_of_app, list_elem_of_singleton. intros [?| ->]; done. }
      split; [done|]. exists g', zs. split; [done|]. cbv beta in Hrun.
      apply (check_Ok_same_names _ _ _ ((v ++ [name g]) ++ [name g])) in Hrun.
      2:{ intros x. rewrite !elem_of_app, list_elem_of_singleton. tauto. }
      eapply check_mono;
        [|apply (check_Ok_frames _ _ _ _ (get_group_registered _ _ _ Hget') Hrun)].
      rewrite Hname'.
      assert (c' ∈ (name <$> groups repo)) as Hreg.
      { apply list_elem_of_fmap. exists g'. by rewrite Hname'. }
      assert (c' ∉ (v ++ [name g]) ++ [name g]) as Hout'.
      { rewrite elem_of_app, list_elem_of_singleton. intros [?| ->]; done. }
      pose proof (remaining_lt _ _ _ Hreg Hout') as Hlt.
      rewrite (remaining_same _ (v ++ [name g]) (name g)) in Hlt
        by (apply elem_of_app; right; apply list_elem_of_here).
      lia.
    + apply elem_of_app. right. apply list_elem_of_here.
  - apply IH; [by eapply get_group_registered|]. rewrite Hname.
    assert (c ∉ v ++ [name g]) as Hout.
    { rewrite elem_of_app, list_elem_of_singleton. intros [?| ->]; done. }
    assert (c ∈ (name <$> groups repo)) as Hreg.
    { apply list_elem_of_fmap. exists g'. by rewrite Hname. }
    pose proof (Hless c Hreg Hout). lia.
Qed.

End Depth.

(** C5 (amended): on every finite registry the traversal of a registered
    root terminates, by returning or by raising, and its recursion depth
    never exceeds the number of groups by more than one: a group that
    lists itself is entered a second time, directly below itself, before
    the loop is detected, and that second entry always ends in the loop
    error. Where no group lists itself as a subgroup, the depth stays
    within the number of groups. *)
Theorem check_subgroup_names_terminates (re_search : Pattern → string → bool)
    (set_iter : list string → list string) (repo : Repository) (root : Group) :
  get_group repo (name root) = Ok root →
  (∃ r, ∀ d, length (groups repo) + 1 ≤ d →
        _check_subgroup_names re_search set_iter d repo root [name root] = Some r) ∧
  ((∀ l x, x ∈ set_iter l ↔ x ∈ l) →
   (∀ n, ¬ subgroup_edge re_search repo n n) →
   ∃ r, ∀ d, length (groups repo) ≤ d →
        _check_subgroup_names re_search set_iter d repo root [name root] = Some r).
Proof.
  intros Hroot.
  destruct (get_group_Ok _ _ _ Hroot) as [_ Hin].
  assert (name root ∈ (name <$> groups repo)) as Hreg
    by (apply list_elem_of_fmap; eauto).
  assert (name root ∈ [name root] ++ [name root]) as Hpath
    by (apply elem_of_app; left; apply list_elem_of_here).
  pose proof (remaining_registered _ _ _ Hreg Hpath) as Hlt.
  rewrite length_fmap in Hlt. split.
  - assert (_check_subgroup_names re_search set_iter (length (groups repo) + 1) repo
              root [name root] ≠ None) as Hret by (apply check_fits; [done|lia]).
    destruct (_check_subgroup_names _ _ _ _ _ _) as [r|] eqn:Hcheck; [|done].
    exists r. intros d Hd. by eapply check_mono.
  - intros Hset Hirr.
    pose proof (check_returns_irreflexive re_search set_iter repo Hset Hirr
                  (length (groups repo)) root [name root] Hroot Hlt) as Hret.
    destruct (_check_subgroup_names _ _ _ _ _ _) as [r|] eqn:Hcheck; [|done].
    exists r. intros d Hd. by eapply check_mono.
Qed.

Lemma check_subgroup_names_terminates_witness :
  (∃ r, ∀ d, length (groups self_loop_repo) + 1 ≤ d →
        _check_subgroup_names anchored_search insertion_order d self_loop_repo
          group_R [name group_R] = Some r) ∧
  (∃ r, ∀ d, length (groups loop_repo) ≤ d →
        _check_subgroup_names anchored_search insertion_order d loop_repo
          group_A [name group_A] = Some r).
Proof.
  split.
  - exact (proj1 (check_subgroup_names_terminates anchored_search insertion_order
                    self_loop_repo group_R eq_refl)).
  - apply (check_subgroup_names_terminates anchored_search insertion_order
             loop_repo group_A eq_refl).
    + apply insertion_order_elem.
    + intros n (g & Hget & Hn). destruct (get_group_Ok _ _ _ Hget) as [<- Hg].
      unfold loop_repo in Hg. simpl in Hg.
      repeat (apply elem_of_cons in Hg as [->|Hg]); [..|by apply elem_of_nil in Hg];
        vm_compute in Hn; destruct Hn as [Hn|Hn];
        try (by apply elem_of_nil in Hn);
        apply list_elem_of_singleton in Hn; discriminate Hn.
Defined.

(** ** Comparing groups *)

Lemma compare_Lt_lex (s1 s2 : string) :
  String.compare s1 s2 = Lt ↔ lex_lt s1 s2.
Proof.
  revert s2. induction s1 as [|a s1 IH]; intros [|b s2]; simpl.
  - split; [done|inversion 1].
  - split; [constructor|done].
  - split; [done|inversion 1].
  - destruct (Ascii.compare a b) eqn:Hab.
    + apply Ascii.compare_eq_iff in Hab as ->. rewrite IH. split.
      * by constructor.
      * inversion 1; subst; [lia|done].
    + split; [|done]. intros _. apply lex_lt_head. by apply N.compare_lt_iff.
    + split; [done|]. unfold Ascii.compare in Hab.
      inversion 1; subst.
      * apply N.compare_gt_iff in Hab. lia.
      * by rewrite N.compare_refl in Hab.
Qed.

(** The claim of C9 fails on equality: two [Group] objects built for the
    same name are not equal, since the class defines no [__eq__]. *)
Lemma same_name_groups_are_unequal :
  name first_a = name second_a ∧
  Group_eq first_a second_a = false ∧
  Group_ne first_a second_a = true.
Proof. split_and!; reflexivity. Qed.

(** C9 (amended): the ordering between groups is determined by their
    names only, [G1 < G2] exactly when [G1.name] is lexicographically
    smaller than [G2.name]; equality of groups is object identity, and
    for the groups of one registry (unique names, distinct objects) it
    holds exactly when the names are equal. *)
Theorem group_order_by_name (g1 g2 : Group) :
  (Group_lt g1 g2 = true ↔ lex_lt (name g1) (name g2)) ∧
  (Group_eq g1 g2 = true ↔ oid g1 = oid g2) ∧
  (∀ repo, unique_names repo → NoDup (oid <$> groups repo) →
           g1 ∈ groups repo → g2 ∈ groups repo →
           (Group_eq g1 g2 = true ↔ name g1 = name g2)).
Proof.
  assert (Group_eq g1 g2 = true ↔ oid g1 = oid g2) as Heq.
  { unfold Group_eq. apply bool_decide_eq_true. }
  split_and!; [|exact Heq|].
  - unfold Group_lt, str_lt, String.ltb. rewrite <- compare_Lt_lex.
    destruct (String.compare (name g1) (name g2)); split; done.
  - intros repo Hnames Hoids H1 H2. rewrite Heq.
    split; intros Hsame; f_equal.
    + by apply (NoDup_fmap_elem_inj oid (groups repo)).
    + by apply (NoDup_fmap_elem_inj name (groups repo)).
Qed.

Lemma group_order_by_name_witness :
  Group_lt (sample_group 1 "db-primary" [] []) (sample_group 2 "db-replica" [] []) = true ∧
  lex_lt "db-primary" "db-replica" ∧
  (Group_eq web web = true ↔ name web = name web).
Proof.
  pose proof (group_order_by_name (sample_group 1 "db-primary" [] [])
                (sample_group 2 "db-replica" [] [])) as [Hlt _].
  pose proof (group_order_by_name web web) as (_ & _ & Heq).
  split; [reflexivity|]. split; [apply Hlt; reflexivity|].
  apply (Heq web_repo).
  - unfold unique_names. by_eval.
  - by_eval.
  - apply list_elem_of_here.
  - apply list_elem_of_here.
Defined.

(** ** Construction *)


Lemma rmap_compile_cases (re_valid : string → bool) (l : list string) :
  (∃ ps, rmap (re_compile re_valid) l = Ok ps ∧ ∀ p, p ∈ l → re_valid p = true) ∨
  (∃ p, p ∈ l ∧ re_valid p = false ∧ rmap (re_compile re_valid) l = Raise (ReError p)).
Proof.
  induction l as [|q l IH]; simpl.
  - left. exists []. split; [done|]. intros p Hp. by apply elem_of_nil in Hp.
  - unfold re_compile at 1 3. destruct (re_valid q) eqn:Hq; simpl.
    + destruct IH as [(ps & -> & Hgood)|(p & Hp & Hbad & ->)]; simpl.
      * left. eexists. split; [done|].
        intros p [->|Hp]%elem_of_cons; [done|by apply Hgood].
      * right. exists p. split_and!; [by apply list_elem_of_further|done..].
    + right. exists q. split_and!; [apply list_elem_of_here|done..].
Qed.




(** ** Digests *)

Lemma sorted_Permutation (l1 l2 : list string) :
  sorted l1 = sorted l2 ↔ l1 ≡ₚ l2.
Proof.
  unfold sorted. split; intros H.
  - rewrite <- (merge_sort_Permutation String.le l1), H.
    apply merge_sort_Permutation.
  - apply (Sorted_unique String.le); [apply Sorted_merge_sort, _..|].
    by rewrite !merge_sort_Permutation.
Qed.

Lemma Group_nodes_Permutation (repo repo' : Repository) (self : Group) :
  nodes repo ≡ₚ nodes repo' → Group_nodes repo self ≡ₚ Group_nodes repo' self.
Proof. unfold Group_nodes. by intros ->. Qed.

Lemma Group_nodes_NoDup (repo : Repository) (self : Group) :
  NoDup (names (nodes repo)) → NoDup (names (Group_nodes repo self)).
Proof.
  intros Hnd. eapply sublist_NoDup; [exact Hnd|].
  unfold names, Group_nodes. apply fmap_sublist, sublist_filter.
Qed.

Local Instance key_le_trans : Transitive key_le.
Proof. intros a b c. unfold key_le. apply transitivity. Qed.

Local Instance key_le_total : Total key_le.
Proof. intros a b. unfold key_le. apply total, _. Qed.

Lemma dict_setitem_fresh (d : pydict) (k v : string) :
  k ∉ d.*1 → dict_setitem d k v = d ++ [(k, v)].
Proof.
  induction d as [|[k' v'] d IH]; intros Hk; simpl; [done|].
  rewrite fmap_cons in Hk. apply not_elem_of_cons in Hk as [Hne Hk].
  rewrite bool_decide_eq_false_2 by (simpl in Hne; congruence).
  by rewrite IH.
Qed.

Lemma cdict_foldl (ms : list Node) (acc : pydict) :
  NoDup (acc.*1 ++ names ms) →
  foldl (λ group_dict node, dict_setitem group_dict (node_name node) (node_hash node))
        acc ms
  = acc ++ ((λ m, (node_name m, node_hash m)) <$> ms).
Proof.
  revert acc. induction ms as [|m ms IH]; intros acc Hnd; simpl.
  - by rewrite app_nil_r.
  - unfold names in Hnd. rewrite fmap_cons in Hnd.
    rewrite dict_setitem_fresh.
    + rewrite IH; [by rewrite <- app_assoc|].
      rewrite fmap_app. simpl. by rewrite <- app_assoc.
    + apply NoDup_app in Hnd as (_ & Hdisj & _). intros Hin.
      exact (Hdisj _ Hin (list_elem_of_here _ _)).
Qed.

(** With distinct member names, [cdict] maps each member's name to that
    member's digest, in the order of the members. *)
Lemma cdict_items (repo : Repository) (self : Group) :
  NoDup (names (Group_nodes repo self)) →
  cdict repo self = (λ m, (node_name m, node_hash m)) <$> Group_nodes repo self.
Proof. intros Hnd. unfold cdict. by rewrite cdict_foldl. Qed.

Lemma key_sorted_Permutation (d d' : pydict) :
  NoDup (d.*1) → d ≡ₚ d' → merge_sort key_le d = merge_sort key_le d'.
Proof.
  intros Hnd Hperm.
  apply (Sorted_unique_strong key_le); [|apply Sorted_merge_sort, _..|].
  - intros x1 x2 H1 H2 Hle1 Hle2.
    rewrite merge_sort_Permutation in H1.
    rewrite merge_sort_Permutation, <- Hperm in H2.
    apply (NoDup_fmap_elem_inj fst d); [done..|].
    by apply (anti_symm String.le).
  - by rewrite !merge_sort_Permutation.
Qed.

(** C6: [group_membership_hash] does not depend on the order in which the
    registry iterates its nodes, and (node names being unique, the digest
    free of collisions) two registries give the same digest exactly when
    the group has the same set of member names in both. *)
Theorem group_membership_hash_invariant {Digest : Type} (digest : statedict → Digest)
    (self : Group) (repo repo' : Repository) :
  (nodes repo ≡ₚ nodes repo' →
   group_membership_hash digest repo self = group_membership_hash digest repo' self) ∧
  ((∀ s s', digest s = digest s' → s = s') →
   NoDup (names (nodes repo)) → NoDup (names (nodes repo')) →
   (group_membership_hash digest repo self = group_membership_hash digest repo' self ↔
    ∀ n, n ∈ names (Group_nodes repo self) ↔ n ∈ names (Group_nodes repo' self))).
Proof.
  unfold group_membership_hash, hash_statedict. simpl. split.
  - intros Hperm. do 2 f_equal. apply sorted_Permutation.
    unfold names. by rewrite (Group_nodes_Permutation _ _ self Hperm).
  - intros Hinj Hnd Hnd'. split.
    + intros Hhash%Hinj. injection Hhash as Hsorted.
      apply sorted_Permutation in Hsorted. intros n. by rewrite Hsorted.
    + intros Hsame. do 2 f_equal. apply sorted_Permutation.
      apply NoDup_Permutation; [by apply Group_nodes_NoDup..|done].
Qed.

Lemma group_membership_hash_invariant_witness :
  group_membership_hash id nodes_repo group_G
  = group_membership_hash id reversed_repo group_G ∧
  (group_membership_hash id nodes_repo group_G
   = group_membership_hash id changed_repo group_G ↔
   ∀ n, n ∈ names (Group_nodes nodes_repo group_G) ↔
        n ∈ names (Group_nodes changed_repo group_G)).
Proof.
  assert (nodes nodes_repo ≡ₚ nodes reversed_repo) as Hperm
    by exact (reverse_Permutation [node2; node3; node1]).
  split.
  - exact (proj1 (group_membership_hash_invariant id group_G nodes_repo reversed_repo)
             Hperm).
  - apply (group_membership_hash_invariant id group_G nodes_repo changed_repo).
    + intros s s' H. exact H.
    + by_eval.
    + by_eval.
Defined.

(** C7: the state hash of a group digests the key-sorted mapping from
    each member node's name to that node's state digest; it does not
    depend on the order in which the nodes are iterated, and (the digest
    free of collisions) it changes when one member's state digest
    changes while the membership stays the same. *)
Theorem group_hash_invariant {Digest : Type} (digest : statedict → Digest)
    (self : Group) (repo repo' : Repository) :
  NoDup (names (nodes repo)) →
  Group_hash digest repo self
  = digest (SDict (merge_sort key_le
                     ((λ m, (node_name m, node_hash m)) <$> Group_nodes repo self))) ∧
  (nodes repo ≡ₚ nodes repo' →
   Group_hash digest repo self = Group_hash digest repo' self) ∧
  ((∀ s s', digest s = digest s' → s = s') →
   ∀ l1 l2 m m',
     Group_nodes repo self = l1 ++ m :: l2 →
     Group_nodes repo' self = l1 ++ m' :: l2 →
     node_name m' = node_name m →
     node_hash m' ≠ node_hash m →
     Group_hash digest repo self ≠ Group_hash digest repo' self).
Proof.
  intros Hnd. pose proof (Group_nodes_NoDup _ self Hnd) as Hmem.
  unfold Group_hash, hash_statedict. simpl. rewrite (cdict_items _ _ Hmem).
  assert (NoDup (((λ m, (node_name m, node_hash m)) <$> Group_nodes repo self).*1))
    as Hkeys by (by rewrite <- list_fmap_compose).
  split_and!; [done| |].
  - intros Hperm. do 2 f_equal.
    pose proof (Group_nodes_Permutation _ _ self Hperm) as Hperm'.
    rewrite cdict_items by (unfold names; by rewrite <- Hperm').
    apply key_sorted_Permutation; [done|by rewrite Hperm'].
  - intros Hinj l1 l2 m m' Hl Hl' Hname Hhash Heq.
    assert (names (Group_nodes repo' self) = names (Group_nodes repo self)) as Hnames.
    { unfold names. rewrite Hl, Hl', !fmap_app, !fmap_cons. by rewrite Hname. }
    rewrite cdict_items in Heq by (by rewrite Hnames).
    apply Hinj in Heq. injection Heq as Heq.
    assert ((λ m, (node_name m, node_hash m)) <$> Group_nodes repo self
            ≡ₚ (λ m, (node_name m, node_hash m)) <$> Group_nodes repo' self) as Hperm.
    { rewrite <- (merge_sort_Permutation key_le), Heq. apply merge_sort_Permutation. }
    apply Hhash. symmetry.
    assert ((node_name m, node_hash m) ∈
              (λ m, (node_name m, node_hash m)) <$> Group_nodes repo self) as Hm.
    { rewrite Hl. apply list_elem_of_fmap. exists m. split; [done|].
      apply elem_of_app. right. apply list_elem_of_here. }
    assert ((node_name m', node_hash m') ∈
              (λ m, (node_name m, node_hash m)) <$> Group_nodes repo self) as Hm'.
    { rewrite Hperm, Hl'. apply list_elem_of_fmap. exists m'. split; [done|].
      apply elem_of_app. right. apply list_elem_of_here. }
    pose proof (NoDup_fmap_elem_inj fst _ _ _ Hkeys Hm Hm' (eq_sym Hname)) as Hpair.
    by injection Hpair.
Qed.

Lemma group_hash_invariant_witness :
  Group_hash id nodes_repo group_G = Group_hash id reversed_repo group_G ∧
  Group_hash id nodes_repo group_G = SDict [("node1", "h1"); ("node2", "h2")] ∧
  Group_hash id nodes_repo group_G ≠ Group_hash id changed_repo group_G.
Proof.
  assert (NoDup (names (nodes nodes_repo))) as Hnd by by_eval.
  destruct (group_hash_invariant id group_G nodes_repo reversed_repo Hnd)
    as (_ & Hperm & _).
  destruct (group_hash_invariant id group_G nodes_repo changed_repo Hnd)
    as (_ & _ & Hchange).
  split_and!.
  - apply Hperm. exact (reverse_Permutation [node2; node3; node1]).
  - vm_compute. reflexivity.
  - apply (Hchange (λ s s' H, H) [node1] [] node2 (sample_node "node2" "h2'" ["G"]));
      [reflexivity|reflexivity|reflexivity|].
    intros H. simpl in H. discriminate H.
Defined.

(** * Further properties *)

(** ** The error chain on arbitrary paths *)

Lemma chain_foldl_filter (n : string) (l acc : list string) :
  n ∈ acc → foldl (chain_step n) acc l = acc ++ filter (λ x, x ≠ n) l.
Proof.
  revert acc. induction l as [|x l IH]; intros acc Hacc; simpl.
  - by rewrite app_nil_r.
  - unfold chain_step at 2. rewrite (bool_decide_eq_true_2 _ Hacc).
    rewrite filter_cons. destruct (decide (x = n)) as [->|Hne].
    + rewrite bool_decide_eq_true_2 by done. simpl.
      destruct (decide (n ≠ n)); [done|]. by apply IH.
    + rewrite bool_decide_eq_false_2 by congruence. simpl.
      destruct (decide (x ≠ n)); [|done].
      rewrite IH; [by rewrite <- app_assoc|].
      apply elem_of_app. by left.
Qed.

Lemma first_index_split (n : string) (l : list string) :
  n ∈ l →
  ∃ pre post, l = pre ++ n :: post ∧ (n ∉ pre) ∧
              drop (S (first_index n l)) l = post.
Proof.
  induction l as [|x l IH]; intros Hin; [by apply elem_of_nil in Hin|]. simpl.
  destruct (decide (x = n)) as [->|Hne].
  - rewrite bool_decide_eq_true_2 by done.
    exists [], l. split_and!; [done|apply not_elem_of_nil|done].
  - rewrite bool_decide_eq_false_2 by done.
    apply elem_of_cons in Hin as [Hin|Hin]; [congruence|].
    destruct (IH Hin) as (pre & post & Hl & Hpre & Hdrop).
    exists (x :: pre), post. split_and!.
    + by rewrite Hl at 1.
    + apply not_elem_of_cons. split; [congruence|done].
    + exact Hdrop.
Qed.

(** X1: whatever the path, duplicates included, the chain is the
    repeated name followed by the names after its first occurrence on the
    path, without its further occurrences, and closed by [last_node] and
    the repeated name; a path without the repeated name contributes
    nothing. *)
Theorem build_error_chain_closed_form (loop_node last_node : string)
    (nodes_in_between : list string) :
  _build_error_chain loop_node last_node nodes_in_between
  = (if bool_decide (loop_node ∈ nodes_in_between)
     then loop_node ::
          filter (λ x, x ≠ loop_node)
                 (drop (S (first_index loop_node nodes_in_between)) nodes_in_between)
     else [])
    ++ [last_node; loop_node].
Proof.
  unfold _build_error_chain. rewrite <- app_assoc. f_equal.
  case_bool_decide as Hin.
  - destruct (first_index_split _ _ Hin) as (pre & post & Hl & Hpre & ->).
    rewrite Hl, foldl_app, (chain_foldl_before _ _ Hpre). simpl.
    unfold chain_step at 2.
    rewrite (bool_decide_eq_false_2 (loop_node ∈ [])) by apply not_elem_of_nil.
    rewrite (bool_decide_eq_true_2 (loop_node = loop_node)) by done. simpl.
    rewrite chain_foldl_filter; [done|apply list_elem_of_here].
  - by apply chain_foldl_before.
Qed.

(** ** The reported chain is a loop of the subgroup relation *)

Section Chains.

Variable re_search : Pattern → string → bool.
Variable set_iter : list string → list string.
Hypothesis set_iter_elem : ∀ l x, x ∈ set_iter l ↔ x ∈ l.
Variable repo : Repository.

Local Abbreviation edge := (subgroup_edge re_search repo).
Local Abbreviation path := (subgroup_path re_search repo).

Lemma path_pair (a b : string) : edge a b → path [a; b].
Proof.
  intros Hab [|[|i]] x y Hx Hy; simpl in *; try done.
  by injection Hx as <-; injection Hy as <-.
Qed.

Lemma path_snoc (l : list string) (a b : string) :
  path (l ++ [a]) → edge a b → path ((l ++ [a]) ++ [b]).
Proof.
  intros Hl Hab i x y Hx Hy.
  destruct (decide (S i < length (l ++ [a]))) as [Hlt|Hge].
  - apply (Hl i); [rewrite lookup_app_l in Hx by lia; done|].
    by rewrite lookup_app_l in Hy by lia.
  - pose proof (lookup_lt_Some _ _ _ Hy) as Hlen.
    rewrite !length_app in Hlen. rewrite length_app in Hge. simpl in Hlen, Hge.
    assert (i = length l) as -> by lia.
    rewrite lookup_app_l in Hx by (rewrite length_app; simpl; lia).
    rewrite lookup_app_r in Hx by lia.
    rewrite lookup_app_r in Hy by (rewrite length_app; simpl; lia).
    rewrite length_app in Hy. simpl in Hy.
    replace (length l - length l) with 0 in Hx by lia.
    replace (S (length l) - (length l + 1)) with 0 in Hy by lia.
    simpl in Hx, Hy. by injection Hx as <-; injection Hy as <-.
Qed.

(** A group that is on its own path is the path's last name, and only
    that. *)
Lemma on_stack_self (root : string) (v : list string) (g : string) :
  on_stack re_search repo root v g → g ∈ v → ∃ v0, v = v0 ++ [g] ∧ g ∉ v0.
Proof.
  destruct 1 as [|v g g' _ _ Hnew]; intros Hin.
  - exists []. split; [done|apply not_elem_of_nil].
  - apply elem_of_app in Hin as [Hin|Hin%list_elem_of_singleton]; [done|].
    subst. by exists v.
Qed.

Lemma on_stack_toggle_self (root : string) (v : list string) (g : string) :
  on_stack re_search repo root v g →
  foldl (chain_step g) [] (v ++ [g]) = [g].
Proof.
  intros Hst. destruct (decide (g ∈ v)) as [Hin|Hout].
  - destruct (on_stack_self _ _ _ Hst Hin) as (v0 & -> & Hv0).
    rewrite !foldl_app, (chain_foldl_before _ _ Hv0). simpl.
    unfold chain_step.
    rewrite (bool_decide_eq_false_2 (g ∈ [])) by apply not_elem_of_nil.
    rewrite (bool_decide_eq_true_2 (g = g)) by done. simpl.
    by rewrite (bool_decide_eq_true_2 (g ∈ [g])) by apply list_elem_of_here.
  - rewrite foldl_app, (chain_foldl_before _ _ Hout). simpl.
    unfold chain_step.
    rewrite (bool_decide_eq_false_2 (g ∈ [])) by apply not_elem_of_nil.
    by rewrite (bool_decide_eq_true_2 (g = g)) by done.
Qed.

(** The names kept by the toggle loop lead to the current group. *)
Lemma on_stack_path (root : string) (v : list string) (g : string) :
  on_stack re_search repo root v g →
  ∀ n, n ∈ v → n ≠ g → path (foldl (chain_step n) [] v ++ [g]).
Proof.
  induction 1 as [|v g g' Hst IH Hedge Hnew]; intros n Hin Hne.
  - apply list_elem_of_singleton in Hin. done.
  - destruct (decide (n = g)) as [->|Hng].
    + rewrite (on_stack_toggle_self _ _ _ Hst). by apply path_pair.
    + apply elem_of_app in Hin as [Hin|Hin%list_elem_of_singleton]; [|done].
      rewrite foldl_app. simpl. unfold chain_step at 1.
      destruct (chain_foldl_head n v Hin) as [tl Htl].
      rewrite (bool_decide_eq_true_2 (n ∈ foldl (chain_step n) [] v))
        by (rewrite Htl; apply list_elem_of_here).
      rewrite (bool_decide_eq_false_2 (n = g)) by done. simpl.
      apply path_snoc; [by apply IH|done].
Qed.

Lemma on_stack_chain (root : string) (v : list string) (g n : string) :
  on_stack re_search repo root v g → n ∈ v → edge g n →
  path (_build_error_chain n g v).
Proof.
  intros Hst Hin Hedge. unfold _build_error_chain.
  destruct (decide (n = g)) as [->|Hne].
  - destruct (on_stack_self _ _ _ Hst Hin) as (v0 & -> & Hv0).
    rewrite foldl_app, (chain_foldl_before _ _ Hv0). simpl.
    unfold chain_step.
    rewrite (bool_decide_eq_false_2 (g ∈ [])) by apply not_elem_of_nil.
    rewrite (bool_decide_eq_true_2 (g = g)) by done. simpl.
    apply (path_snoc [g] g g); [by apply path_pair|done].
  - apply path_snoc; [by eapply on_stack_path|done].
Qed.

Lemma check_Raise_chain (root : string) (d : nat) (g : Group) (v : list string)
    (n : string) (chain : list string) :
  get_group repo (name g) = Ok g →
  on_stack re_search repo root v (name g) →
  _check_subgroup_names re_search set_iter d repo g v
  = Some (Raise (RepositoryError (SubgroupLoop n chain))) →
  path chain ∧ 3 ≤ length chain.
Proof.
  revert g v. induction d as [|d IH]; intros g v Hg Hst Hraise; [done|].
  rewrite check_unfold in Hraise.
  destruct (visit_names _ _ _ _ _) as [[zs|e']|] eqn:Hvisit; try done.
  injection Hraise as ->.
  apply visit_names_Raise in Hvisit as (c & Hcand & Hcase).
  apply (candidate_edge _ _ set_iter_elem) in Hcand; [|done].
  destruct Hcase as [[Hcv Heq]|[(Hcv & Hget & Heq)|(Hcv & g' & Hget & Hrec)]].
  - injection Heq as -> ->. split; [by eapply on_stack_chain|].
    unfold _build_error_chain. destruct (chain_foldl_head c v Hcv) as [tl ->].
    rewrite !length_app. simpl. lia.
  - done.
  - destruct (get_group_Ok _ _ _ Hget) as [Hname _].
    apply (IH g' (v ++ [name g])); [by eapply get_group_registered| |done].
    rewrite Hname. by constructor.
Qed.

End Chains.

(** X2: the chain of a loop error raised by [subgroups] is a loop of the
    subgroup relation: it starts and ends with the repeated name, and
    every name in it has the next one as an explicit or pattern-derived
    subgroup. *)
Theorem loop_chain_is_a_loop (re_search : Pattern → string → bool)
    (set_iter : list string → list string) (repo : Repository) (root : Group)
    (n : string) (chain : list string) :
  (∀ l x, x ∈ set_iter l ↔ x ∈ l) →
  get_group repo (name root) = Ok root →
  subgroups re_search set_iter repo root
  = Some (Raise (RepositoryError (SubgroupLoop n chain))) →
  head chain = Some n ∧ last chain = Some n ∧ 3 ≤ length chain ∧
  subgroup_path re_search repo chain.
Proof.
  intros Hset Hroot. unfold subgroups.
  destruct (_check_subgroup_names _ _ _ _ _ _) as [[ys|e]|] eqn:Hcheck; try done.
  - destruct (rmap _ _) eqn:Hmap; [done|]. intros [= ->]. exfalso.
    destruct (rmap_Ok_total repo (set_iter ys)) as [gs Hgs]; [|congruence].
    intros m Hm. apply (proj1 (Hset _ _)) in Hm.
    exact (root_yields_registered _ _ _ _ _ _ Hcheck m Hm).
  - intros [= ->].
    destruct (check_Raise_chain _ _ Hset _ (name root) _ _ _ _ _ Hroot
                (on_stack_root _ _ _) Hcheck) as [Hpath Hlen].
    apply (check_Raise _ _ Hset) in Hcheck as
      [(? & ? & [=] & _)|(n' & chain' & [= <- <-] & _ & _ & Hhd & Hlast)];
      [done|done|].
    intros a ->%list_elem_of_singleton. apply rtc_refl.
Qed.

Lemma loop_chain_is_a_loop_witness :
  subgroups anchored_search insertion_order loop_repo group_A
  = Some (Raise (RepositoryError (SubgroupLoop "A" ["A"; "B"; "C"; "A"]))) ∧
  subgroup_path anchored_search loop_repo ["A"; "B"; "C"; "A"].
Proof.
  assert (subgroups anchored_search insertion_order loop_repo group_A
          = Some (Raise (RepositoryError (SubgroupLoop "A" ["A"; "B"; "C"; "A"]))))
    as Hrun by (vm_compute; reflexivity).
  split; [exact Hrun|].
  apply (loop_chain_is_a_loop anchored_search insertion_order loop_repo group_A "A"
           ["A"; "B"; "C"; "A"] insertion_order_elem eq_refl Hrun).
Defined.

(** ** What [subgroups] raises, and when it returns *)

(** X3: a pattern-derived subgroup name always resolves: it is the name
    of a group the registry holds, so the lookup of it succeeds. *)
Theorem pattern_names_resolve (re_search : Pattern → string → bool)
    (repo : Repository) (self : Group) (n : string) :
  n ∈ _subgroup_names_from_patterns re_search repo self →
  ∃ g, get_group repo n = Ok g ∧ name g = n ∧ g ∈ groups repo.
Proof.
  unfold _subgroup_names_from_patterns. intros Hn.
  apply list_elem_of_bind in Hn as (p & Hn & _).
  apply list_elem_of_bind in Hn as (g & Hn & Hg).
  destruct (_ && _); [|by apply elem_of_nil in Hn].
  apply list_elem_of_singleton in Hn as ->.
  destruct (get_group repo (name g)) as [g'|e] eqn:Hget.
  - exists g'. destruct (get_group_Ok _ _ _ Hget). done.
  - destruct (get_group_Raise _ _ _ Hget) as [_ Hout].
    exfalso. apply Hout, list_elem_of_fmap. eauto.
Qed.

Lemma pattern_names_resolve_witness :
  ∃ g, get_group web_repo "db-replica" = Ok g ∧ name g = "db-replica" ∧
       g ∈ groups web_repo.
Proof.
  apply (pattern_names_resolve anchored_search web_repo web "db-replica").
  by_eval.
Defined.

Lemma pattern_names_registered (re_search : Pattern → string → bool)
    (repo : Repository) (self : Group) (n : string) :
  n ∈ _subgroup_names_from_patterns re_search repo self →
  ∃ g, get_group repo n = Ok g.
Proof.
  unfold _subgroup_names_from_patterns. intros Hn.
  apply list_elem_of_bind in Hn as (p & Hn & _).
  apply list_elem_of_bind in Hn as (g & Hn & Hg).
  destruct (_ && _); [|by apply elem_of_nil in Hn].
  apply list_elem_of_singleton in Hn as ->.
  destruct (get_group repo (name g)) as [g'|e] eqn:Hget; [by eauto|].
  destruct (get_group_Raise _ _ _ Hget) as [_ Hout].
  exfalso. apply Hout, list_elem_of_fmap. eauto.
Qed.

Lemma subgroups_Ok_inv (re_search : Pattern → string → bool)
    (set_iter : list string → list string) (repo : Repository) (root : Group)
    (gs : list Group) :
  subgroups re_search set_iter repo root = Some (Ok gs) →
  ∃ ys, _check_subgroup_names re_search set_iter (stack_bound repo) repo root
          [name root] = Some (Ok ys) ∧
        rmap (get_group repo) (set_iter ys) = Ok gs.
Proof.
  unfold subgroups.
  destruct (_check_subgroup_names _ _ _ _ _ _) as [[ys|e]|]; try done.
  intros [= Hgs]. by exists ys.
Qed.

Lemma subgroups_Raise_inv (re_search : Pattern → string → bool)
    (set_iter : list string → list string) (repo : Repository) (root : Group)
    (e : exn) :
  (∀ l x, x ∈ set_iter l ↔ x ∈ l) →
  subgroups re_search set_iter repo root = Some (Raise e) →
  _check_subgroup_names re_search set_iter (stack_bound repo) repo root [name root]
  = Some (Raise e).
Proof.
  intros Hset. unfold subgroups.
  destruct (_check_subgroup_names _ _ _ _ _ _) as [[ys|e']|] eqn:Hcheck;
    [|by intros [= ->]|done].
  intros [= Hmap]. exfalso.
  destruct (rmap_Ok_total repo (set_iter ys)) as [gs Hgs]; [|congruence].
  intros m Hm. apply (proj1 (Hset _ _)) in Hm.
  exact (root_yields_registered _ _ _ _ _ _ Hcheck m Hm).
Qed.

Lemma rmap_get_group_elem (repo : Repository) (l : list string) (gs : list Group) :
  rmap (get_group repo) l = Ok gs →
  ∀ g, g ∈ gs ↔ ∃ n, n ∈ l ∧ get_group repo n = Ok g.
Proof.
  revert gs. induction l as [|n l IH]; intros gs; simpl.
  - intros [= <-] g. split; [by intros ?%elem_of_nil|].
    by intros (? & ?%elem_of_nil & _).
  - destruct (get_group repo n) as [g0|] eqn:Hget; simpl; [|done].
    destruct (rmap (get_group repo) l) as [gs'|]; simpl; [|done].
    intros [= <-] g. rewrite elem_of_cons, (IH gs' eq_refl). split.
    + intros [->|(m & Hm & Hg)].
      * exists n. split; [apply list_elem_of_here|done].
      * exists m. split; [by apply list_elem_of_further|done].
    + intros (m & [->|Hm]%elem_of_cons & Hg); [left; congruence|right; eauto].
Qed.

(** The groups a returning [subgroups] produces: the registered holders
    of the names below the root. *)
Lemma subgroups_Ok_elem (re_search : Pattern → string → bool)
    (set_iter : list string → list string) (repo : Repository) (root : Group)
    (gs : list Group) :
  (∀ l x, x ∈ set_iter l ↔ x ∈ l) →
  get_group repo (name root) = Ok root →
  subgroups re_search set_iter repo root = Some (Ok gs) →
  (∀ g, g ∈ gs ↔ tc (subgroup_edge re_search repo) (name root) (name g) ∧
                 get_group repo (name g) = Ok g) ∧
  (∀ n, rtc (subgroup_edge re_search repo) (name root) n →
        ¬ tc (subgroup_edge re_search repo) n n) ∧
  (∀ n, tc (subgroup_edge re_search repo) (name root) n →
        ∃ g, get_group repo n = Ok g).
Proof.
  intros Hset Hroot Hsub.
  destruct (subgroups_Ok_inv _ _ _ _ _ Hsub) as (ys & Hcheck & Hmap).
  pose proof (check_Ok_yields _ _ Hset _ _ _ _ _ Hroot Hcheck) as Hy.
  assert (∀ n, n ∈ set_iter ys ↔ tc (subgroup_edge re_search repo) (name root) n) as Hn.
  { intros n. rewrite Hset, Hy. split; [|by left].
    intros [?|[_ Hv]]; [done|]. exfalso. apply Hv, list_elem_of_here. }
  split_and!.
  - intros g. rewrite (rmap_get_group_elem _ _ _ Hmap). split.
    + intros (n & Hin & Hget). destruct (get_group_Ok _ _ _ Hget) as [<- _].
      split; [by apply Hn|done].
    + intros [Htc Hget]. exists (name g). split; [by apply Hn|done].
  - exact (check_Ok_acyclic _ _ Hset _ _ _ _ _ Hroot Hcheck).
  - intros n Htc. apply Hn, (proj1 (Hset _ _)) in Htc.
    exact (root_yields_registered _ _ _ _ _ _ Hcheck n Htc).
Qed.

Lemma subgroups_returns_if (re_search : Pattern → string → bool)
    (set_iter : list string → list string) (repo : Repository) (root : Group) :
  (∀ l x, x ∈ set_iter l ↔ x ∈ l) →
  get_group repo (name root) = Ok root →
  (∀ n, rtc (subgroup_edge re_search repo) (name root) n →
        ¬ tc (subgroup_edge re_search repo) n n) →
  (∀ n, tc (subgroup_edge re_search repo) (name root) n →
        ∃ g, get_group repo n = Ok g) →
  ∃ gs, subgroups re_search set_iter repo root = Some (Ok gs).
Proof.
  intros Hset Hroot Hacyc Hres. unfold subgroups.
  pose proof (root_within_stack_bound re_search set_iter repo root) as Hret.
  destruct (_check_subgroup_names _ _ _ _ _ _) as [[ys|e]|] eqn:Hcheck; [| |done].
  - destruct (rmap_Ok_total repo (set_iter ys)) as [gs Hgs]; [|by exists gs; rewrite Hgs].
    intros n Hn. apply (proj1 (Hset _ _)) in Hn.
    exact (root_yields_registered _ _ _ _ _ _ Hcheck n Hn).
  - exfalso.
    apply (check_Raise _ _ Hset) in Hcheck as
      [(n & s & _ & Hreach & Hedge & Hget)|(n & chain & _ & Hreach & Hcyc & _)];
      [| |done|].
    + destruct (Hres s) as [g Hg]; [by eapply tc_rtc_l; [|apply tc_once]|congruence].
    + by apply (Hacyc n).
    + intros a ->%list_elem_of_singleton. apply rtc_refl.
Qed.

(** X4: every exception [subgroups] raises is one of the two
    configuration errors, and what it reports is accurate: the
    missing-group error names a group below (or equal to) the root and a
    name from that group's explicit [subgroups] list that no group has;
    the loop error names a group below the root that is its own
    descendant. The bare lookup failure [NoSuchGroup] never escapes. *)
Theorem subgroups_errors (re_search : Pattern → string → bool)
    (set_iter : list string → list string) (repo : Repository) (root : Group)
    (e : exn) :
  (∀ l x, x ∈ set_iter l ↔ x ∈ l) →
  get_group repo (name root) = Ok root →
  subgroups re_search set_iter repo root = Some (Raise e) →
  (∃ g s, e = RepositoryError (SubgroupNotFound (name g) s) ∧
          rtc (subgroup_edge re_search repo) (name root) (name g) ∧
          get_group repo (name g) = Ok g ∧
          s ∈ immediate_subgroup_names g ∧
          get_group repo s = Raise (NoSuchGroup s))
  ∨ (∃ n chain, e = RepositoryError (SubgroupLoop n chain) ∧
                rtc (subgroup_edge re_search repo) (name root) n ∧
                tc (subgroup_edge re_search repo) n n).
Proof.
  intros Hset Hroot Hraise.
  apply (subgroups_Raise_inv _ _ _ _ _ Hset) in Hraise.
  apply (check_Raise _ _ Hset) in Hraise as
    [(n & s & -> & Hreach & (g & Hg & Hs) & Hget)|(n & chain & -> & Hreach & Hcyc & _)];
    [| |done|].
  - left. destruct (get_group_Ok _ _ _ Hg) as [<- _].
    exists g, s. split_and!; [done..| |done].
    destruct Hs as [Hs|Hs]; [done|].
    destruct (pattern_names_registered _ _ _ _ Hs) as [g' Hg']. congruence.
  - right. by exists n, chain.
  - intros a ->%list_elem_of_singleton. apply rtc_refl.
Qed.

Lemma subgroups_errors_witness :
  ∃ g s, RepositoryError (SubgroupNotFound "X" "M")
         = RepositoryError (SubgroupNotFound (name g) s) ∧
         s ∈ immediate_subgroup_names g ∧
         get_group dangling_repo s = Raise (NoSuchGroup s).
Proof.
  destruct (subgroups_errors anchored_search insertion_order dangling_repo group_X
              (RepositoryError (SubgroupNotFound "X" "M"))
              insertion_order_elem eq_refl)
    as [(g & s & He & _ & _ & Hs & Hget)|(n & chain & He & _)].
  - vm_compute. reflexivity.
  - by exists g, s.
  - discriminate He.
Defined.

(** X5: [subgroups] of a registered group returns a result exactly when
    no group at or below it is its own descendant and every name below it
    belongs to a group of the registry. *)
Theorem subgroups_returns_iff (re_search : Pattern → string → bool)
    (set_iter : list string → list string) (repo : Repository) (root : Group) :
  (∀ l x, x ∈ set_iter l ↔ x ∈ l) →
  get_group repo (name root) = Ok root →
  (∃ gs, subgroups re_search set_iter repo root = Some (Ok gs)) ↔
  (∀ n, rtc (subgroup_edge re_search repo) (name root) n →
        ¬ tc (subgroup_edge re_search repo) n n) ∧
  (∀ n, tc (subgroup_edge re_search repo) (name root) n →
        ∃ g, get_group repo n = Ok g).
Proof.
  intros Hset Hroot. split.
  - intros [gs Hgs].
    by destruct (subgroups_Ok_elem _ _ _ _ _ Hset Hroot Hgs) as (_ & ? & ?).
  - intros [Hacyc Hres]. by apply subgroups_returns_if.
Qed.

Lemma subgroups_returns_iff_witness :
  (∀ n, rtc (subgroup_edge anchored_search web_repo) (name web) n →
        ¬ tc (subgroup_edge anchored_search web_repo) n n) ∧
  (∀ n, tc (subgroup_edge anchored_search web_repo) (name web) n →
        ∃ g, get_group web_repo n = Ok g).
Proof.
  apply (subgroups_returns_iff anchored_search insertion_order web_repo web
           insertion_order_elem eq_refl).
  eexists. vm_compute. reflexivity.
Defined.

(** X6: the closure is closed downwards: for a group [h] among the
    subgroups of [root], [subgroups] of [h] returns as well, and all its
    groups are among the subgroups of [root]. *)
Theorem subgroups_of_subgroup (re_search : Pattern → string → bool)
    (set_iter : list string → list string) (repo : Repository) (root h : Group)
    (gs : list Group) :
  (∀ l x, x ∈ set_iter l ↔ x ∈ l) →
  get_group repo (name root) = Ok root →
  subgroups re_search set_iter repo root = Some (Ok gs) →
  h ∈ gs →
  ∃ hs, subgroups re_search set_iter repo h = Some (Ok hs) ∧ hs ⊆ gs.
Proof.
  intros Hset Hroot Hgs Hh.
  destruct (subgroups_Ok_elem _ _ _ _ _ Hset Hroot Hgs) as (Helem & Hacyc & Hres).
  apply Helem in Hh as [Hreach Hreg].
  destruct (subgroups_returns_if re_search set_iter repo h Hset Hreg) as [hs Hhs].
  - intros n Hn. apply Hacyc. eapply rtc_trans; [by apply tc_rtc|done].
  - intros n Hn. apply Hres. by eapply tc_trans.
  - exists hs. split; [done|]. intros k Hk.
    destruct (subgroups_Ok_elem _ _ _ _ _ Hset Hreg Hhs) as (Helem' & _).
    apply Helem' in Hk as [Hk Hkreg]. apply Helem. split; [|done].
    by eapply tc_trans.
Qed.

Lemma subgroups_of_subgroup_witness :
  ∃ hs, subgroups anchored_search insertion_order nested_repo group_mid = Some (Ok hs) ∧
        hs ⊆ [group_leaf; group_mid].
Proof.
  apply (subgroups_of_subgroup anchored_search insertion_order nested_repo
           group_top group_mid [group_leaf; group_mid] insertion_order_elem eq_refl).
  - vm_compute. reflexivity.
  - apply list_elem_of_further, list_elem_of_here.
Defined.

(** ** [immediate_subgroups] *)

(** The lookups of [immediate_subgroups], in terms of the plain lookups. *)
Lemma immediate_rmap (repo : Repository) (self_name : string) (l : list string) :
  match rmap (get_group repo) l with
  | Ok gs =>
      rmap (λ group_name,
              match get_group repo group_name with
              | Raise (NoSuchGroup _) =>
                  Raise (RepositoryError (SubgroupNotFound self_name group_name))
              | other => other
              end) l = Ok gs
  | Raise _ =>
      ∃ n, n ∈ l ∧ get_group repo n = Raise (NoSuchGroup n) ∧
        rmap (λ group_name,
                match get_group repo group_name with
                | Raise (NoSuchGroup _) =>
                    Raise (RepositoryError (SubgroupNotFound self_name group_name))
                | other => other
                end) l = Raise (RepositoryError (SubgroupNotFound self_name n))
  end.
Proof.
  induction l as [|m l IH]; simpl; [done|].
  destruct (get_group repo m) as [g|e] eqn:Hget; simpl.
  - destruct (rmap (get_group repo) l) as [gs|e]; simpl.
    + by rewrite IH.
    + destruct IH as (n & Hn & Hunreg & ->). exists n.
      split_and!; [by apply list_elem_of_further|done..].
  - destruct (get_group_Raise _ _ _ Hget) as [-> _]. exists m.
    split_and!; [apply list_elem_of_here|done..].
Qed.

(** X7: [immediate_subgroups] either returns the registered holders of
    exactly the explicit and pattern-derived subgroup names, or raises the
    missing-group error for a name of the group's explicit [subgroups]
    list that no group has; it returns whenever all these names resolve,
    and makes no check for loops. *)
Theorem immediate_subgroups_outcome (re_search : Pattern → string → bool)
    (set_iter : list string → list string) (repo : Repository) (self : Group) :
  (∀ l x, x ∈ set_iter l ↔ x ∈ l) →
  match immediate_subgroups re_search set_iter repo self with
  | Ok gs =>
      name <$> gs = candidate_names re_search set_iter repo self ∧
      (∀ g, g ∈ gs ↔
            get_group repo (name g) = Ok g ∧
            (name g ∈ immediate_subgroup_names self ∨
             name g ∈ _subgroup_names_from_patterns re_search repo self)) ∧
      (∀ n, n ∈ immediate_subgroup_names self → ∃ g, get_group repo n = Ok g)
  | Raise e =>
      ∃ n, e = RepositoryError (SubgroupNotFound (name self) n) ∧
           n ∈ immediate_subgroup_names self ∧
           get_group repo n = Raise (NoSuchGroup n)
  end.
Proof.
  intros Hset. unfold immediate_subgroups.
  pose proof (immediate_rmap repo (name self)
                (candidate_names re_search set_iter repo self)) as Himm.
  destruct (rmap (get_group repo) _) as [gs|e0] eqn:Hmap.
  - rewrite Himm. split_and!.
    + exact (rmap_Ok_names _ _ _ Hmap).
    + intros g. rewrite (rmap_get_group_elem _ _ _ Hmap). unfold candidate_names.
      split.
      * intros (n & Hn & Hget). destruct (get_group_Ok _ _ _ Hget) as [<- _].
        split; [done|]. by apply Hset, elem_of_app in Hn.
      * intros [Hget Hn]. exists (name g). split; [|done].
        by apply Hset, elem_of_app.
    + intros n Hn.
      assert (n ∈ name <$> gs) as Hin.
      { rewrite (rmap_Ok_names _ _ _ Hmap). unfold candidate_names.
        apply Hset, elem_of_app. by left. }
      apply list_elem_of_fmap in Hin as (g & -> & Hg).
      apply (rmap_get_group_elem _ _ _ Hmap) in Hg as (m & _ & Hget).
      exists g. by eapply get_group_registered.
  - destruct Himm as (n & Hn & Hunreg & ->). exists n. split_and!; [done| |done].
    unfold candidate_names in Hn. apply Hset, elem_of_app in Hn as [Hn|Hn]; [done|].
    destruct (pattern_names_registered _ _ _ _ Hn) as [g Hg]. congruence.
Qed.

Lemma immediate_subgroups_outcome_witness :
  (∃ gs, immediate_subgroups anchored_search insertion_order web_repo web = Ok gs ∧
         name <$> gs = ["cache"; "db-primary"; "db-replica"]) ∧
  immediate_subgroups anchored_search insertion_order dangling_repo group_X
  = Raise (RepositoryError (SubgroupNotFound "X" "M")).
Proof.
  pose proof (immediate_subgroups_outcome anchored_search insertion_order web_repo web
                insertion_order_elem) as Hweb.
  pose proof (immediate_subgroups_outcome anchored_search insertion_order
                dangling_repo group_X insertion_order_elem) as Hdangling.
  split; [|vm_compute; reflexivity].
  destruct (immediate_subgroups anchored_search insertion_order web_repo web)
    as [gs|e] eqn:Hrun; [|vm_compute in Hrun; discriminate Hrun].
  exists gs. split; [done|].
  destruct Hweb as [-> _]. vm_compute. reflexivity.
Defined.

(** X8: when [subgroups] of a registered group returns, so does
    [immediate_subgroups], and each immediate subgroup is among the
    subgroups. *)
Theorem immediate_subgroups_in_closure (re_search : Pattern → string → bool)
    (set_iter : list string → list string) (repo : Repository) (root : Group)
    (gs : list Group) :
  (∀ l x, x ∈ set_iter l ↔ x ∈ l) →
  get_group repo (name root) = Ok root →
  subgroups re_search set_iter repo root = Some (Ok gs) →
  ∃ direct, immediate_subgroups re_search set_iter repo root = Ok direct ∧
            direct ⊆ gs.
Proof.
  intros Hset Hroot Hgs.
  destruct (subgroups_Ok_elem _ _ _ _ _ Hset Hroot Hgs) as (Helem & _ & Hres).
  unfold immediate_subgroups.
  pose proof (immediate_rmap repo (name root)
                (candidate_names re_search set_iter repo root)) as Himm.
  destruct (rmap_Ok_total repo (candidate_names re_search set_iter repo root))
    as [direct Hdirect].
  { intros n Hn. apply Hres, tc_once. by apply (candidate_edge _ _ Hset). }
  rewrite Hdirect in Himm. exists direct. split; [done|].
  intros g Hg. apply (rmap_get_group_elem _ _ _ Hdirect) in Hg as (n & Hn & Hget).
  destruct (get_group_Ok _ _ _ Hget) as [<- _].
  apply Helem. split; [|done].
  apply tc_once. by apply (candidate_edge _ _ Hset).
Qed.

Lemma immediate_subgroups_in_closure_witness :
  ∃ direct, immediate_subgroups anchored_search insertion_order nested_repo group_top
            = Ok direct ∧ direct ⊆ [group_leaf; group_mid].
Proof.
  apply (immediate_subgroups_in_closure anchored_search insertion_order nested_repo
           group_top [group_leaf; group_mid] insertion_order_elem eq_refl).
  vm_compute. reflexivity.
Defined.

(** X9: a group that lists itself is one of its own immediate subgroups
    (given that the names it lists resolve), while [subgroups] refuses it
    with a configuration error: only the closure looks for loops. *)
Theorem self_listing_group (re_search : Pattern → string → bool)
    (set_iter : list string → list string) (repo : Repository) (self : Group) :
  (∀ l x, x ∈ set_iter l ↔ x ∈ l) →
  get_group repo (name self) = Ok self →
  name self ∈ immediate_subgroup_names self →
  (∀ n, n ∈ immediate_subgroup_names self → ∃ g, get_group repo n = Ok g) →
  (∃ direct, immediate_subgroups re_search set_iter repo self = Ok direct ∧
             self ∈ direct) ∧
  (∃ msg, subgroups re_search set_iter repo self = Some (Raise (RepositoryError msg))).
Proof.
  intros Hset Hself Hown Hres.
  assert (subgroup_edge re_search repo (name self) (name self)) as Hedge.
  { exists self. split; [done|by left]. }
  split.
  - unfold immediate_subgroups.
    pose proof (immediate_rmap repo (name self)
                  (candidate_names re_search set_iter repo self)) as Himm.
    destruct (rmap_Ok_total repo (candidate_names re_search set_iter repo self))
      as [direct Hdirect].
    { intros n Hn. unfold candidate_names in Hn.
      apply Hset, elem_of_app in Hn as [Hn|Hn]; [by apply Hres|].
      by eapply pattern_names_registered. }
    rewrite Hdirect in Himm. exists direct. split; [done|].
    apply (rmap_get_group_elem _ _ _ Hdirect). exists (name self).
    split; [|done]. by apply (candidate_edge _ _ Hset).
  - unfold subgroups.
    pose proof (root_within_stack_bound re_search set_iter repo self) as Hret.
    destruct (_check_subgroup_names _ _ _ _ _ _) as [[ys|e]|] eqn:Hcheck; [| |done].
    + exfalso.
      apply (check_Ok_acyclic _ _ Hset _ _ _ _ _ Hself Hcheck (name self));
        [apply rtc_refl|by apply tc_once].
    + apply (check_Raise _ _ Hset) in Hcheck as
        [(n & s & -> & _)|(n & chain & -> & _)]; [by eexists|by eexists|done|].
      intros a ->%list_elem_of_singleton. apply rtc_refl.
Qed.

Lemma self_listing_group_witness :
  (∃ direct, immediate_subgroups anchored_search insertion_order own_repo group_own
             = Ok direct ∧ group_own ∈ direct) ∧
  (∃ msg, subgroups anchored_search insertion_order own_repo group_own
          = Some (Raise (RepositoryError msg))).
Proof.
  apply (self_listing_group anchored_search insertion_order own_repo group_own
           insertion_order_elem eq_refl).
  - apply list_elem_of_here.
  - intros n Hn. apply list_elem_of_singleton in Hn as ->. by eexists.
Defined.

(** ** [parent_groups] and [immediate_parent_groups] *)

Lemma parents_scan_Ok (subs : Group → option (result (list Group)))
    (self : Group) (todo ps : list Group) :
  parents_scan subs self todo = Some (Ok ps) →
  (∀ p, p ∈ todo → ∃ gs, subs p = Some (Ok gs)) ∧
  (∀ p, p ∈ ps ↔ p ∈ todo ∧ ∃ gs, subs p = Some (Ok gs) ∧ Group_in self gs = true).
Proof.
  revert ps. induction todo as [|q todo IH]; intros ps; simpl.
  - intros [= <-]. split; [by intros ? ?%elem_of_nil|].
    intros p. split; [by intros ?%elem_of_nil|by intros [?%elem_of_nil _]].
  - destruct (subs q) as [[gs|e]|] eqn:Hq; try done.
    destruct (parents_scan subs self todo) as [[more|e]|]; try done.
    destruct (IH more eq_refl) as [IH1 IH2]. intros [= <-]. split.
    + intros p [->|Hp]%elem_of_cons; [by eauto|by apply IH1].
    + intros p. destruct (Group_in self gs) eqn:Hin.
      * rewrite !elem_of_cons, IH2. split.
        -- intros [->|[Hp Hsub]]; [|by auto]. split; [by left|by eauto].
        -- intros [[->|Hp] Hsub]; [by left|by right].
      * rewrite elem_of_cons, IH2. split; [intros [Hp Hsub]; by auto|].
        intros [[->|Hp] (gs' & Hgs' & Hin')]; [congruence|by eauto].
Qed.

Lemma parents_scan_Raise (subs : Group → option (result (list Group)))
    (self : Group) (todo : list Group) (e : exn) :
  parents_scan subs self todo = Some (Raise e) →
  ∃ p, p ∈ todo ∧ subs p = Some (Raise e).
Proof.
  induction todo as [|q todo IH]; simpl; [done|].
  destruct (subs q) as [[gs|e']|] eqn:Hq; try done.
  - destruct (parents_scan subs self todo) as [[more|e']|]; try done.
    intros [= <-]. destruct (IH eq_refl) as (p & Hp & Hsub).
    exists p. split; [by apply list_elem_of_further|done].
  - intros [= <-]. exists q. split; [apply list_elem_of_here|done].
Qed.

Lemma parents_scan_returns (subs : Group → option (result (list Group)))
    (self : Group) (todo : list Group) :
  (∀ p, p ∈ todo → subs p ≠ None) → parents_scan subs self todo ≠ None.
Proof.
  induction todo as [|q todo IH]; intros Hsubs; simpl; [done|].
  pose proof (Hsubs q (list_elem_of_here _ _)) as Hq.
  destruct (subs q) as [[gs|e]|]; try done.
  assert (parents_scan subs self todo ≠ None) as Hrest.
  { apply IH. intros p ?. apply Hsubs. by apply list_elem_of_further. }
  destruct (parents_scan subs self todo) as [[more|e]|]; done.
Qed.

(** Among registered groups with distinct identities, [in] finds a group
    exactly when it is an element. *)
Lemma Group_in_registered (repo : Repository) (self : Group) (gs : list Group) :
  NoDup (oid <$> groups repo) →
  self ∈ groups repo →
  (∀ g, g ∈ gs → g ∈ groups repo) →
  Group_in self gs = true ↔ self ∈ gs.
Proof.
  intros Hoids Hself Hgs. unfold Group_in. rewrite existsb_exists. split.
  - intros (g & Hg%list_elem_of_In & Heq).
    apply bool_decide_eq_true in Heq.
    assert (self = g) as ->; [|done].
    apply (NoDup_fmap_elem_inj oid (groups repo)); auto.
  - intros Hin. exists self. split; [by apply list_elem_of_In|].
    by apply bool_decide_eq_true.
Qed.

Lemma subgroups_subs_returns (re_search : Pattern → string → bool)
    (set_iter : list string → list string) (repo : Repository) (g : Group) :
  subgroups re_search set_iter repo g ≠ None.
Proof.
  unfold subgroups.
  pose proof (root_within_stack_bound re_search set_iter repo g) as Hret.
  by destruct (_check_subgroup_names _ _ _ _ _ _) as [[ys|e]|].
Qed.

(** X10: [parent_groups] of any group returns exactly when [subgroups]
    returns for every group of the registry: one loop or one dangling
    subgroup name anywhere makes it fail for all groups, with the error
    of the first failing group in registry order. *)
Theorem parent_groups_returns_iff (re_search : Pattern → string → bool)
    (set_iter : list string → list string) (repo : Repository) (self : Group) :
  ((∃ ps, parent_groups re_search set_iter repo self = Some (Ok ps)) ↔
   ∀ g, g ∈ groups repo → ∃ gs, subgroups re_search set_iter repo g = Some (Ok gs)) ∧
  (∀ e, parent_groups re_search set_iter repo self = Some (Raise e) →
        ∃ pre g post, groups repo = pre ++ g :: post ∧
                      subgroups re_search set_iter repo g = Some (Raise e) ∧
                      ∀ p, p ∈ pre →
                           ∃ gs, subgroups re_search set_iter repo p = Some (Ok gs)).
Proof.
  unfold parent_groups. split.
  - split.
    + intros [ps Hps]. by apply parents_scan_Ok in Hps as [? _].
    + intros Hall.
      pose proof (parents_scan_returns (subgroups re_search set_iter repo) self
                    (groups repo)
                    (λ p _, subgroups_subs_returns re_search set_iter repo p)) as Hret.
      destruct (parents_scan _ _ _) as [[ps|e]|] eqn:Hscan; [by eauto| |done].
      apply parents_scan_Raise in Hscan as (p & Hp & Hraise).
      destruct (Hall p Hp) as [gs Hgs]. congruence.
  - intros e. generalize (groups repo). intros todo.
    induction todo as [|q todo IH]; simpl; [done|].
    destruct (subgroups re_search set_iter repo q) as [[gs|e']|] eqn:Hq; try done.
    + destruct (parents_scan _ _ todo) as [[more|e']|]; try done.
      intros [= <-]. destruct (IH eq_refl) as (pre & g & post & -> & Hg & Hpre).
      exists (q :: pre), g, post. split_and!; [done..|].
      intros p [->|Hp]%elem_of_cons; [by eauto|by apply Hpre].
    + intros [= <-]. exists [], q, todo. split_and!; [done..|].
      by intros p ?%elem_of_nil.
Qed.

(** X11: in a registry with unique names and distinct objects, the
    groups [parent_groups] returns for one of its groups are exactly the
    groups of the registry from which that group can be reached by one
    or more subgroup edges. *)
Theorem parent_groups_are_ancestors (re_search : Pattern → string → bool)
    (set_iter : list string → list string) (repo : Repository) (self : Group)
    (ps : list Group) :
  (∀ l x, x ∈ set_iter l ↔ x ∈ l) →
  unique_names repo →
  NoDup (oid <$> groups repo) →
  self ∈ groups repo →
  parent_groups re_search set_iter repo self = Some (Ok ps) →
  ∀ p, p ∈ ps ↔
       p ∈ groups repo ∧ tc (subgroup_edge re_search repo) (name p) (name self).
Proof.
  intros Hset Hnames Hoids Hself Hps p.
  apply parents_scan_Ok in Hps as [Hall Helem]. rewrite Helem.
  split; intros [Hp Hrest]; (split; [done|]);
    pose proof (get_group_unique _ _ Hnames Hp) as Hpreg.
  - destruct Hrest as (gs & Hgs & Hin).
    destruct (subgroups_Ok_elem _ _ _ _ _ Hset Hpreg Hgs) as (Hgs_elem & _).
    apply (Group_in_registered repo) in Hin; [by apply Hgs_elem in Hin as [? _]|done..|].
    intros g Hg%Hgs_elem. by destruct Hg as [_ [_ ?]%get_group_Ok].
  - destruct (Hall p Hp) as [gs Hgs].
    exists gs. split; [done|].
    destruct (subgroups_Ok_elem _ _ _ _ _ Hset Hpreg Hgs) as (Hgs_elem & _).
    apply (Group_in_registered repo); [done..| |].
    + intros g Hg%Hgs_elem. by destruct Hg as [_ [_ ?]%get_group_Ok].
    + apply Hgs_elem. split; [done|]. by apply get_group_unique.
Qed.

Lemma parent_groups_are_ancestors_witness :
  parent_groups anchored_search insertion_order nested_repo group_leaf
  = Some (Ok [group_top; group_mid]) ∧
  ∀ p, p ∈ [group_top; group_mid] ↔
       p ∈ groups nested_repo ∧
       tc (subgroup_edge anchored_search nested_repo) (name p) (name group_leaf).
Proof.
  assert (parent_groups anchored_search insertion_order nested_repo group_leaf
          = Some (Ok [group_top; group_mid])) as Hrun by (vm_compute; reflexivity).
  split; [exact Hrun|].
  apply (parent_groups_are_ancestors anchored_search insertion_order nested_repo
           group_leaf [group_top; group_mid] insertion_order_elem).
  - unfold unique_names. by_eval.
  - by_eval.
  - do 2 apply list_elem_of_further. apply list_elem_of_here.
  - exact Hrun.
Defined.

Lemma immediate_subgroups_Ok_elem (re_search : Pattern → string → bool)
    (set_iter : list string → list string) (repo : Repository) (self : Group)
    (gs : list Group) :
  (∀ l x, x ∈ set_iter l ↔ x ∈ l) →
  immediate_subgroups re_search set_iter repo self = Ok gs →
  rmap (get_group repo) (candidate_names re_search set_iter repo self) = Ok gs ∧
  ∀ g, g ∈ gs ↔ get_group repo (name g) = Ok g ∧
                (name g ∈ immediate_subgroup_names self ∨
                 name g ∈ _subgroup_names_from_patterns re_search repo self).
Proof.
  intros Hset. unfold immediate_subgroups.
  pose proof (immediate_rmap repo (name self)
                (candidate_names re_search set_iter repo self)) as Himm.
  destruct (rmap (get_group repo) _) as [gs'|e0] eqn:Hmap.
  - rewrite Himm. intros [= <-]. split; [done|].
    intros g. rewrite (rmap_get_group_elem _ _ _ Hmap). unfold candidate_names. split.
    + intros (n & Hn & Hget). destruct (get_group_Ok _ _ _ Hget) as [<- _].
      split; [done|]. by apply Hset, elem_of_app in Hn.
    + intros [Hget Hn]. exists (name g). split; [|done]. by apply Hset, elem_of_app.
  - destruct Himm as (n & _ & _ & ->). done.
Qed.

(** X12: in a registry with unique names and distinct objects, the
    groups [immediate_parent_groups] returns for one of its groups are
    exactly the groups of the registry that have it as an explicit or
    pattern-derived subgroup. *)
Theorem immediate_parent_groups_are_parents (re_search : Pattern → string → bool)
    (set_iter : list string → list string) (repo : Repository) (self : Group)
    (ps : list Group) :
  (∀ l x, x ∈ set_iter l ↔ x ∈ l) →
  unique_names repo →
  NoDup (oid <$> groups repo) →
  self ∈ groups repo →
  immediate_parent_groups re_search set_iter repo self = Some (Ok ps) →
  ∀ p, p ∈ ps ↔
       p ∈ groups repo ∧
       (name self ∈ immediate_subgroup_names p ∨
        name self ∈ _subgroup_names_from_patterns re_search repo p).
Proof.
  intros Hset Hnames Hoids Hself Hps p.
  apply parents_scan_Ok in Hps as [Hall Helem]. rewrite Helem.
  split; intros [Hp Hrest]; (split; [done|]).
  - destruct Hrest as (gs & [= Hgs] & Hin).
    destruct (immediate_subgroups_Ok_elem _ _ _ _ _ Hset Hgs) as [_ Hgs_elem].
    apply (Group_in_registered repo) in Hin; [by apply Hgs_elem in Hin as [_ ?]|done..|].
    intros g Hg%Hgs_elem. by destruct Hg as [[_ ?]%get_group_Ok _].
  - destruct (Hall p Hp) as [gs [= Hgs]]. exists gs. split; [by rewrite Hgs|].
    destruct (immediate_subgroups_Ok_elem _ _ _ _ _ Hset Hgs) as [_ Hgs_elem].
    apply (Group_in_registered repo); [done..| |].
    + intros g Hg%Hgs_elem. by destruct Hg as [[_ ?]%get_group_Ok _].
    + apply Hgs_elem. split; [by apply get_group_unique|done].
Qed.

Lemma immediate_parent_groups_are_parents_witness :
  immediate_parent_groups anchored_search insertion_order nested_repo group_leaf
  = Some (Ok [group_mid]) ∧
  ∀ p, p ∈ [group_mid] ↔
       p ∈ groups nested_repo ∧
       (name group_leaf ∈ immediate_subgroup_names p ∨
        name group_leaf ∈ _subgroup_names_from_patterns anchored_search nested_repo p).
Proof.
  assert (immediate_parent_groups anchored_search insertion_order nested_repo group_leaf
          = Some (Ok [group_mid])) as Hrun by (vm_compute; reflexivity).
  split; [exact Hrun|].
  apply (immediate_parent_groups_are_parents anchored_search insertion_order nested_repo
           group_leaf [group_mid] insertion_order_elem).
  - unfold unique_names. by_eval.
  - by_eval.
  - do 2 apply list_elem_of_further. apply list_elem_of_here.
  - exact Hrun.
Defined.

(** X13: [immediate_parent_groups] of any group returns exactly when
    every name in the explicit [subgroups] list of every group of the
    registry resolves; loops of the subgroup relation do not make it
    fail. *)
Theorem immediate_parent_groups_returns_iff (re_search : Pattern → string → bool)
    (set_iter : list string → list string) (repo : Repository) (self : Group) :
  (∀ l x, x ∈ set_iter l ↔ x ∈ l) →
  (∃ ps, immediate_parent_groups re_search set_iter repo self = Some (Ok ps)) ↔
  ∀ g n, g ∈ groups repo → n ∈ immediate_subgroup_names g →
         ∃ g', get_group repo n = Ok g'.
Proof.
  intros Hset. unfold immediate_parent_groups. split.
  - intros [ps Hps] g n Hg Hn. apply parents_scan_Ok in Hps as [Hall _].
    destruct (Hall g Hg) as [gs [= Hgs]].
    destruct (immediate_subgroups_Ok_elem _ _ _ _ _ Hset Hgs) as [Hmap _].
    assert (n ∈ name <$> gs) as Hin.
    { rewrite (rmap_Ok_names _ _ _ Hmap). unfold candidate_names.
      apply Hset, elem_of_app. by left. }
    apply list_elem_of_fmap in Hin as (g' & -> & Hg').
    apply (rmap_get_group_elem _ _ _ Hmap) in Hg' as (m & _ & Hget).
    exists g'. by eapply get_group_registered.
  - intros Hres.
    pose proof (parents_scan_returns
                  (λ group, Some (immediate_subgroups re_search set_iter repo group))
                  self (groups repo) (λ p _, ltac:(done))) as Hret.
    destruct (parents_scan _ _ _) as [[ps|e]|] eqn:Hscan; [by eauto| |done].
    exfalso. apply parents_scan_Raise in Hscan as (p & Hp & [= Hraise]).
    unfold immediate_subgroups in Hraise.
    pose proof (immediate_rmap repo (name p)
                  (candidate_names re_search set_iter repo p)) as Himm.
    destruct (rmap (get_group repo) _) as [gs|e0] eqn:Hmap; [congruence|].
    destruct Himm as (n & Hn & Hunreg & _).
    unfold candidate_names in Hn. apply Hset, elem_of_app in Hn as [Hn|Hn].
    + destruct (Hres p n Hp Hn) as [g' Hg']. congruence.
    + destruct (pattern_names_registered _ _ _ _ Hn) as [g' Hg']. congruence.
Qed.

Lemma immediate_parent_groups_returns_iff_witness :
  (∃ ps, immediate_parent_groups anchored_search insertion_order loop_repo group_A
         = Some (Ok ps)) ∧
  ∃ msg, parent_groups anchored_search insertion_order loop_repo group_A
         = Some (Raise (RepositoryError msg)).
Proof.
  split; [|eexists; vm_compute; reflexivity].
  apply (immediate_parent_groups_returns_iff anchored_search insertion_order loop_repo
           group_A insertion_order_elem).
  intros g n Hg Hn. unfold loop_repo in Hg. simpl in Hg.
  repeat (apply elem_of_cons in Hg as [->|Hg]); [..|by apply elem_of_nil in Hg];
    apply list_elem_of_singleton in Hn as ->; eexists; reflexivity.
Defined.

(** X14: every immediate parent is a parent: when both
    [immediate_parent_groups] and [parent_groups] return (names being
    unique), each group of the first is in the second. *)
Theorem immediate_parents_are_parents (re_search : Pattern → string → bool)
    (set_iter : list string → list string) (repo : Repository) (self : Group)
    (direct ps : list Group) :
  (∀ l x, x ∈ set_iter l ↔ x ∈ l) →
  unique_names repo →
  immediate_parent_groups re_search set_iter repo self = Some (Ok direct) →
  parent_groups re_search set_iter repo self = Some (Ok ps) →
  direct ⊆ ps.
Proof.
  intros Hset Hnames Hdirect Hps p Hp.
  apply parents_scan_Ok in Hdirect as [_ Hdirect].
  apply parents_scan_Ok in Hps as [Hall Hps].
  apply Hdirect in Hp as (Hp & igs & [= Higs] & Hin).
  apply Hps. split; [done|]. destruct (Hall p Hp) as [gs Hgs].
  exists gs. split; [done|].
  pose proof (get_group_unique _ _ Hnames Hp) as Hpreg.
  destruct (immediate_subgroups_Ok_elem _ _ _ _ _ Hset Higs) as [_ Higs_elem].
  destruct (subgroups_Ok_elem _ _ _ _ _ Hset Hpreg Hgs) as (Hgs_elem & _).
  unfold Group_in in *. apply existsb_exists in Hin as (g & Hg & Heq).
  apply existsb_exists. exists g. split; [|done].
  apply list_elem_of_In, Hgs_elem. apply list_elem_of_In, Higs_elem in Hg as [Hreg Hn].
  split; [|done]. apply tc_once. by exists p.
Qed.

Lemma immediate_parents_are_parents_witness :
  [group_mid] ⊆ [group_top; group_mid].
Proof.
  apply (immediate_parents_are_parents anchored_search insertion_order nested_repo
           group_leaf [group_mid] [group_top; group_mid] insertion_order_elem).
  - unfold unique_names. by_eval.
  - vm_compute. reflexivity.
  - vm_compute. reflexivity.
Defined.

(** ** The order of groups *)

Lemma compare_refl (s : string) : String.compare s s = Eq.
Proof.
  induction s as [|a s IH]; simpl; [done|].
  unfold Ascii.compare. by rewrite N.compare_refl.
Qed.

Lemma str_lt_compare (a b : string) : str_lt a b = true ↔ String.compare a b = Lt.
Proof. unfold str_lt, String.ltb. destruct (String.compare a b); split; done. Qed.

Lemma str_lt_trans (a b c : string) :
  str_lt a b = true → str_lt b c = true → str_lt a c = true.
Proof.
  rewrite !str_lt_compare. intros Hab Hbc.
  assert (String.le a c) as Hac.
  { transitivity b; unfold String.le, String.leb; [by rewrite Hab|by rewrite Hbc]. }
  unfold String.le, String.leb in Hac.
  destruct (String.compare a c) eqn:Hcmp; [|done|done].
  apply String.compare_eq_iff in Hcmp as ->.
  rewrite String.compare_antisym, Hbc in Hab. done.
Qed.

(** X15: [<] on groups is a strict order that looks at names only:
    irreflexive, transitive, and for two groups exactly one of [g1 < g2],
    equal names, [g2 < g1] holds. Two groups with the same name are in
    neither order, also when they are different objects. *)
Theorem group_lt_strict_order (g1 g2 g3 : Group) :
  Group_lt g1 g1 = false ∧
  (Group_lt g1 g2 = true → Group_lt g2 g3 = true → Group_lt g1 g3 = true) ∧
  (Group_lt g1 g2 = true ∨ name g1 = name g2 ∨ Group_lt g2 g1 = true) ∧
  (Group_lt g1 g2 = true → Group_lt g2 g1 = false ∧ name g1 ≠ name g2) ∧
  (name g1 = name g2 → Group_lt g1 g2 = false ∧ Group_lt g2 g1 = false).
Proof.
  unfold Group_lt.
  assert (∀ a, str_lt a a = false) as Hirr.
  { intros a. unfold str_lt, String.ltb. by rewrite compare_refl. }
  split_and!.
  - apply Hirr.
  - apply str_lt_trans.
  - destruct (String.compare (name g1) (name g2)) eqn:Hcmp.
    + right; left. by apply String.compare_eq_iff.
    + left. by apply str_lt_compare.
    + right; right. apply str_lt_compare.
      by rewrite String.compare_antisym, Hcmp.
  - intros Hlt. split.
    + apply str_lt_compare in Hlt. unfold str_lt, String.ltb.
      by rewrite String.compare_antisym, Hlt.
    + intros Heq. rewrite Heq, Hirr in Hlt. done.
  - intros ->. by rewrite Hirr.
Qed.

Lemma group_lt_strict_order_witness :
  Group_lt first_a second_a = false ∧ Group_lt second_a first_a = false ∧
  Group_ne first_a second_a = true.
Proof.
  destruct (group_lt_strict_order first_a second_a first_a) as (_ & _ & _ & _ & Hsame).
  destruct (Hsame eq_refl) as [H1 H2]. split_and!; [exact H1|exact H2|reflexivity].
Defined.

(** ** More on construction *)


Lemma rmap_compile_Ok (re_valid : string → bool) (l : list string) :
  (∀ q, q ∈ l → re_valid q = true) →
  rmap (re_compile re_valid) l = Ok ((λ p, {| pattern_source := p |}) <$> l).
Proof.
  induction l as [|q l IH]; intros Hl; simpl; [done|].
  unfold re_compile at 1. rewrite (Hl q) by apply list_elem_of_here. simpl.
  rewrite IH; [done|]. intros q' ?. apply Hl. by apply list_elem_of_further.
Qed.

(** X16: the checks of the constructor come in a fixed order, and it
    succeeds exactly when all pass: an invalid name gives the
    invalid-name configuration error whatever the dictionary holds; with
    a valid name an invalid dictionary gives the validation error
    whatever the patterns are; and a group is returned exactly when the
    name, the dictionary and every pattern of [subgroup_patterns] and
    [member_patterns] are valid. *)
Theorem group_init_checks (validate_name : string → bool)
    (validate_dict : InfoDict → bool) (re_valid : string → bool)
    (pattern_set_iter : list Pattern → list Pattern)
    (self_id : nat) (group_name : string) (infodict : InfoDict) :
  (validate_name group_name = false →
   Group_init validate_name validate_dict re_valid pattern_set_iter
     self_id group_name (Some infodict)
   = Raise (RepositoryError (InvalidGroupName group_name))) ∧
  (validate_name group_name = true → validate_dict infodict = false →
   Group_init validate_name validate_dict re_valid pattern_set_iter
     self_id group_name (Some infodict)
   = Raise (ValidationError group_name)) ∧
  ((∃ g, Group_init validate_name validate_dict re_valid pattern_set_iter
           self_id group_name (Some infodict) = Ok g) ↔
   validate_name group_name = true ∧ validate_dict infodict = true ∧
   ∀ p, p ∈ strings_of (dict_get infodict "subgroup_patterns" (VStrs [])) ∨
        p ∈ strings_of (dict_get infodict "member_patterns" (VStrs [])) →
        re_valid p = true).
Proof.
  unfold Group_init. simpl. split_and!.
  - by intros ->.
  - by intros -> ->.
  - destruct (validate_name group_name); simpl;
      [|split; [by intros [? ?]|by intros [? _]]].
    destruct (validate_dict infodict); simpl;
      [|split; [by intros [? ?]|by intros (_ & ? & _)]].
    destruct (rmap_compile_cases re_valid
                (strings_of (dict_get infodict "subgroup_patterns" (VStrs []))))
      as [(ps & -> & Hgood)|(q & Hq & Hqbad & ->)]; simpl.
    + destruct (rmap_compile_cases re_valid
                  (strings_of (dict_get infodict "member_patterns" (VStrs []))))
        as [(ms & -> & Hgood')|(q & Hq & Hqbad & ->)]; simpl.
      * split; [|by eauto]. intros _. split_and!; [done..|].
        intros p [Hp|Hp]; [by apply Hgood|by apply Hgood'].
      * split; [by intros [? ?]|]. intros (_ & _ & Hall).
        rewrite Hall in Hqbad by (by right). done.
    + split; [by intros [? ?]|]. intros (_ & _ & Hall).
      rewrite Hall in Hqbad by (by left). done.
Qed.



Lemma group_init_checks_witness :
  Group_init (λ n, bool_decide (n ≠ "")) (λ _, true) sample_re_valid id 0 ""
    (Some [("subgroup_patterns", VStrs ["["])])
  = Raise (RepositoryError (InvalidGroupName "")).
Proof.
  apply (group_init_checks (λ n, bool_decide (n ≠ "")) (λ _, true) sample_re_valid id 0
           "" [("subgroup_patterns", VStrs ["["])]).
  reflexivity.
Defined.

Lemma parent_groups_returns_iff_witness :
  ∃ ps, parent_groups anchored_search insertion_order nested_repo group_leaf
        = Some (Ok ps).
Proof.
  apply (parent_groups_returns_iff anchored_search insertion_order nested_repo group_leaf).
  intros g Hg. unfold nested_repo in Hg. simpl in Hg.
  repeat (apply elem_of_cons in Hg as [->|Hg]); [..|by apply elem_of_nil in Hg];
    eexists; vm_compute; reflexivity.
Defined.

(** ** The member dictionaries *)

Section MemberDict.

(** The value stored for a node: [node.hash()] in [cdict],
    [node.metadata_hash()] in [metadata_hash]. *)
Variable f : Node → string.

Local Abbreviation fill :=
  (foldl (λ group_dict node, dict_setitem group_dict (node_name node) (f node))).

Lemma dict_setitem_keys (d : pydict) (k v : string) :
  (dict_setitem d k v).*1 = if bool_decide (k ∈ d.*1) then d.*1 else d.*1 ++ [k].
Proof.
  induction d as [|[k' v'] d IH]; [done|].
  cbn [dict_setitem]. rewrite (fmap_cons fst (k', v') d). cbn [fst].
  destruct (decide (k' = k)) as [->|Hne].
  - rewrite (bool_decide_eq_true_2 (k = k)) by done.
    by rewrite bool_decide_eq_true_2 by apply list_elem_of_here.
  - rewrite (bool_decide_eq_false_2 (k' = k)) by done.
    rewrite fmap_cons, IH. cbn [fst].
    destruct (decide (k ∈ d.*1)) as [Hin|Hout].
    + rewrite (bool_decide_eq_true_2 (k ∈ d.*1)) by done.
      by rewrite bool_decide_eq_true_2 by (by apply list_elem_of_further).
    + rewrite (bool_decide_eq_false_2 (k ∈ d.*1)) by done.
      rewrite bool_decide_eq_false_2; [done|].
      apply not_elem_of_cons. split; [congruence|done].
Qed.

Lemma dict_getitem_setitem (d : pydict) (k v k' : string) :
  dict_getitem (dict_setitem d k v) k'
  = if bool_decide (k = k') then Some v else dict_getitem d k'.
Proof.
  induction d as [|[k0 v0] d IH]; simpl.
  - by destruct (bool_decide (k = k')).
  - destruct (decide (k0 = k)) as [->|Hne].
    + rewrite (bool_decide_eq_true_2 (k = k)) by done. simpl.
      by destruct (bool_decide (k = k')).
    + rewrite (bool_decide_eq_false_2 (k0 = k)) by done. simpl. rewrite IH.
      destruct (decide (k0 = k')) as [->|Hne'].
      * rewrite (bool_decide_eq_true_2 (k' = k')) by done.
        by rewrite (bool_decide_eq_false_2 (k = k')) by congruence.
      * by rewrite (bool_decide_eq_false_2 (k0 = k')) by done.
Qed.

Lemma fill_keys (ms : list Node) (acc : pydict) :
  NoDup (acc.*1) →
  NoDup ((fill acc ms).*1) ∧
  ∀ k, k ∈ (fill acc ms).*1 ↔ k ∈ acc.*1 ∨ k ∈ names ms.
Proof.
  revert acc. induction ms as [|m ms IH]; intros acc Hnd; simpl.
  - split; [done|]. intros k. split; [by left|].
    intros [?|?%elem_of_nil]; done.
  - assert (NoDup ((dict_setitem acc (node_name m) (f m)).*1) ∧
            ∀ k, k ∈ (dict_setitem acc (node_name m) (f m)).*1 ↔
                 k ∈ acc.*1 ∨ k = node_name m) as [Hnd' Hkeys].
    { rewrite dict_setitem_keys. case_bool_decide as Hin.
      - split; [done|]. intros k. split; [by left|]. by intros [?| ->].
      - split.
        + apply NoDup_app. split_and!; [done| |apply NoDup_singleton].
          by intros k ? ->%list_elem_of_singleton.
        + intros k. by rewrite elem_of_app, list_elem_of_singleton. }
    destruct (IH _ Hnd') as [IH1 IH2]. split; [done|].
    intros k. rewrite IH2, Hkeys, elem_of_cons. tauto.
Qed.

Lemma fill_getitem_other (ms : list Node) (acc : pydict) (k : string) :
  k ∉ names ms → dict_getitem (fill acc ms) k = dict_getitem acc k.
Proof.
  revert acc. induction ms as [|m ms IH]; intros acc Hk; simpl; [done|].
  unfold names in Hk. rewrite fmap_cons in Hk.
  apply not_elem_of_cons in Hk as [Hne Hk].
  rewrite IH by done. rewrite dict_getitem_setitem.
  by rewrite bool_decide_eq_false_2 by congruence.
Qed.

Lemma fill_getitem_last (l1 l2 : list Node) (m : Node) (acc : pydict) :
  node_name m ∉ names l2 →
  dict_getitem (fill acc (l1 ++ m :: l2)) (node_name m) = Some (f m).
Proof.
  intros Hlast. rewrite foldl_app. simpl.
  rewrite fill_getitem_other by done. rewrite dict_getitem_setitem.
  by rewrite bool_decide_eq_true_2.
Qed.

Lemma fill_fresh (ms : list Node) (acc : pydict) :
  NoDup (acc.*1 ++ names ms) →
  fill acc ms = acc ++ ((λ m, (node_name m, f m)) <$> ms).
Proof.
  revert acc. induction ms as [|m ms IH]; intros acc Hnd; simpl.
  - by rewrite app_nil_r.
  - unfold names in Hnd. rewrite fmap_cons in Hnd.
    rewrite dict_setitem_fresh.
    + rewrite IH; [by rewrite <- app_assoc|].
      rewrite fmap_app. simpl. by rewrite <- app_assoc.
    + apply NoDup_app in Hnd as (_ & Hdisj & _). intros Hin.
      exact (Hdisj _ Hin (list_elem_of_here _ _)).
Qed.

Lemma fill_pairs (ms : list Node) (acc : pydict) :
  fill acc ms
  = foldl (λ group_dict kv, dict_setitem group_dict kv.1 kv.2) acc
          ((λ m, (node_name m, f m)) <$> ms).
Proof. revert acc. induction ms as [|m ms IH]; intros acc; simpl; [done|]. apply IH. Qed.

End MemberDict.

(** X19: [cdict] has one entry per member name, whatever the nodes are:
    its keys are the names of the member nodes, each once, and the digest
    stored under a name is that of the last member with that name in
    iteration order (an earlier member of the same name is overwritten). *)
Theorem cdict_last_member_wins (repo : Repository) (self : Group) :
  NoDup ((cdict repo self).*1) ∧
  (∀ k, k ∈ (cdict repo self).*1 ↔ k ∈ names (Group_nodes repo self)) ∧
  (∀ l1 m l2, Group_nodes repo self = l1 ++ m :: l2 →
              node_name m ∉ names l2 →
              dict_getitem (cdict repo self) (node_name m) = Some (node_hash m)).
Proof.
  unfold cdict.
  destruct (fill_keys node_hash (Group_nodes repo self) [] (NoDup_nil_2)) as [Hnd Hkeys].
  split_and!; [done| |].
  - intros k. rewrite Hkeys. split; [|by right]. by intros [?%elem_of_nil|?].
  - intros l1 m l2 -> Hlast. by apply fill_getitem_last.
Qed.

Lemma cdict_last_member_wins_witness :
  cdict twin_repo group_G = [("twin", "h2")] ∧
  dict_getitem (cdict twin_repo group_G) "twin" = Some "h2".
Proof.
  split; [reflexivity|].
  destruct (cdict_last_member_wins twin_repo group_G) as (_ & _ & Hlast).
  apply (Hlast [sample_node "twin" "h1" ["G"]] (sample_node "twin" "h2" ["G"]) []).
  - reflexivity.
  - apply not_elem_of_nil.
Defined.

(** X20: [metadata_hash] has the order-independence of [hash] (node
    names being unique), and each of the two digests depends only on its
    own per-node digests: [metadata_hash] is the same for two registries
    whose members agree in names and metadata digests, whatever their
    state digests, and [hash] is the same for two registries whose
    members agree in names and state digests. *)
Theorem metadata_hash_invariant {Digest : Type} (digest : statedict → Digest)
    (self : Group) (repo repo' : Repository) :
  (NoDup (names (nodes repo)) → nodes repo ≡ₚ nodes repo' →
   metadata_hash digest repo self = metadata_hash digest repo' self) ∧
  ((λ m, (node_name m, node_metadata_hash m)) <$> Group_nodes repo self
   = (λ m, (node_name m, node_metadata_hash m)) <$> Group_nodes repo' self →
   metadata_hash digest repo self = metadata_hash digest repo' self) ∧
  ((λ m, (node_name m, node_hash m)) <$> Group_nodes repo self
   = (λ m, (node_name m, node_hash m)) <$> Group_nodes repo' self →
   Group_hash digest repo self = Group_hash digest repo' self).
Proof.
  unfold metadata_hash, Group_hash, cdict, hash_statedict. simpl. split_and!.
  - intros Hnd Hperm. do 2 f_equal.
    pose proof (Group_nodes_NoDup _ self Hnd) as Hmem.
    pose proof (Group_nodes_Permutation _ _ self Hperm) as Hperm'.
    rewrite !fill_fresh; simpl; [|unfold names; by rewrite <- Hperm'|done].
    apply key_sorted_Permutation; [by rewrite <- list_fmap_compose|by rewrite Hperm'].
  - intros Hsame. by rewrite !fill_pairs, Hsame.
  - intros Hsame. by rewrite !fill_pairs, Hsame.
Qed.

Lemma metadata_hash_invariant_witness :
  metadata_hash id nodes_repo group_G = metadata_hash id reversed_repo group_G ∧
  metadata_hash id nodes_repo group_G = metadata_hash id changed_repo group_G.
Proof.
  destruct (metadata_hash_invariant id group_G nodes_repo reversed_repo)
    as (Hperm & _ & _).
  destruct (metadata_hash_invariant id group_G nodes_repo changed_repo)
    as (_ & Hsame & _).
  split.
  - apply Hperm; [by_eval|exact (reverse_Permutation [node2; node3; node1])].
  - apply Hsame. reflexivity.
Defined.

(** ** Printing *)

Lemma append_cons (a : Ascii.ascii) (s t : string) :
  String a s +:+ t = String a (s +:+ t).
Proof. reflexivity. Qed.

Lemma append_length (s t : string) :
  String.length (s +:+ t) = String.length s + String.length t.
Proof.
  induction s as [|a s IH]; [done|]. rewrite append_cons. simpl. by rewrite IH.
Qed.

Lemma append_inj_r (s1 s2 t : string) : s1 +:+ t = s2 +:+ t → s1 = s2.
Proof.
  intros Heq.
  assert (String.length s1 = String.length s2) as Hlen.
  { apply (f_equal String.length) in Heq. rewrite !append_length in Heq. lia. }
  revert s2 Heq Hlen. induction s1 as [|a s1 IH]; intros [|b s2] Heq Hlen;
    try done.
  rewrite !append_cons in Heq. injection Heq as -> Heq.
  f_equal. apply IH; [done|]. simpl in Hlen. lia.
Qed.

(** X21: [str] of a group is its name and [repr] wraps the name as
    [<Group: name>]; two groups print the same, either way, exactly when
    they have the same name. *)
Theorem group_repr_names (g1 g2 : Group) :
  Group_repr g1 = "<Group: " +:+ Group_str g1 +:+ ">" ∧
  (Group_repr g1 = Group_repr g2 ↔ name g1 = name g2) ∧
  (Group_str g1 = Group_str g2 ↔ name g1 = name g2).
Proof.
  unfold Group_repr, Group_str. split_and!; [done| |done].
  split; [|by intros ->].
  intros Heq. apply (inj (String.app "<Group: ")) in Heq.
  by apply append_inj_r in Heq.
Qed.

(** ** The traversal on an arbitrary path *)

Lemma check_Ok_off_path (re_search : Pattern → string → bool)
    (set_iter : list string → list string) (repo : Repository) :
  (∀ l x, x ∈ set_iter l ↔ x ∈ l) →
  ∀ d g v ys,
    get_group repo (name g) = Ok g →
    _check_subgroup_names re_search set_iter d repo g v = Some (Ok ys) →
    ∀ b, tc (subgroup_edge re_search repo) (name g) b → b ∉ v.
Proof.
  intros Hset. induction d as [|d IH]; intros g v ys Hg Hok b Htc; [done|].
  rewrite check_unfold in Hok.
  destruct (visit_names _ _ _ _ _) as [[zs|]|] eqn:Hvisit; try done.
  apply visit_names_Ok in Hvisit as [Hc _].
  inversion Htc as [? ? Hedge|? c ? Hedge Hrest]; subst.
  - apply (candidate_edge _ _ Hset) in Hedge; [|done]. by destruct (Hc b Hedge).
  - apply (candidate_edge _ _ Hset) in Hedge; [|done].
    destruct (Hc c Hedge) as (_ & g' & zs' & Hget & Hrec & _).
    destruct (get_group_Ok _ _ _ Hget) as [Hname _].
    assert (b ∉ v ++ [name g]) as Hout.
    { eapply (IH g'); [by eapply get_group_registered|exact Hrec|by rewrite Hname]. }
    intros Hin. apply Hout, elem_of_app. by left.
Qed.

(** X22: [_check_subgroup_names] entered on any path, not only the
    root's: when it returns, it has yielded exactly the names below the
    group, none of which is on the path, and the group's own name exactly
    when that is not on the path. A name below the group that is on the
    path is reported as a loop, never yielded. *)
Theorem check_subgroup_names_on_path (re_search : Pattern → string → bool)
    (set_iter : list string → list string) (repo : Repository)
    (d : nat) (g : Group) (visited_names ys : list string) :
  (∀ l x, x ∈ set_iter l ↔ x ∈ l) →
  get_group repo (name g) = Ok g →
  _check_subgroup_names re_search set_iter d repo g visited_names = Some (Ok ys) →
  (∀ b, b ∈ ys ↔
        tc (subgroup_edge re_search repo) (name g) b ∨
        (b = name g ∧ name g ∉ visited_names)) ∧
  (∀ b, b ∈ ys → b ∉ visited_names) ∧
  (name g ∈ ys ↔ name g ∉ visited_names).
Proof.
  intros Hset Hg Hok.
  pose proof (check_Ok_yields _ _ Hset _ _ _ _ _ Hg Hok) as Hy.
  pose proof (check_Ok_off_path _ _ _ Hset _ _ _ _ Hg Hok) as Hoff.
  pose proof (check_Ok_acyclic _ _ Hset _ _ _ _ _ Hg Hok (name g) (rtc_refl _ _))
    as Hirr.
  split_and!; [exact Hy| |].
  - intros b [Htc|[-> Hv]]%Hy; [by apply Hoff|done].
  - rewrite Hy. split; [|by right]. by intros [?|[_ ?]].
Qed.

Lemma check_subgroup_names_on_path_witness :
  _check_subgroup_names anchored_search insertion_order 2 nested_repo group_mid
    ["top"; "top"] = Some (Ok ["leaf"; "mid"]) ∧
  (name group_mid ∈ ["leaf"; "mid"] ↔ name group_mid ∉ ["top"; "top"]).
Proof.
  assert (_check_subgroup_names anchored_search insertion_order 2 nested_repo group_mid
            ["top"; "top"] = Some (Ok ["leaf"; "mid"])) as Hrun
    by (vm_compute; reflexivity).
  split; [exact Hrun|].
  apply (check_subgroup_names_on_path anchored_search insertion_order nested_repo 2
           group_mid ["top"; "top"] ["leaf"; "mid"] insertion_order_elem eq_refl Hrun).
Defined.

(** ** Parents and identity *)

(** X23: [parent_groups] inverts [subgroups]: in a registry of distinct
    objects, for a group [p] of the registry and one of its groups
    [self], [p] is among the parent groups of [self] exactly when [self]
    is among the subgroups of [p]. *)
Theorem parent_groups_invert_subgroups (re_search : Pattern → string → bool)
    (set_iter : list string → list string) (repo : Repository) (self p : Group)
    (ps gs : list Group) :
  (∀ l x, x ∈ set_iter l ↔ x ∈ l) →
  unique_names repo →
  NoDup (oid <$> groups repo) →
  self ∈ groups repo →
  p ∈ groups repo →
  parent_groups re_search set_iter repo self = Some (Ok ps) →
  subgroups re_search set_iter repo p = Some (Ok gs) →
  p ∈ ps ↔ self ∈ gs.
Proof.
  intros Hset Hnames Hoids Hself Hp Hps Hgs.
  apply parents_scan_Ok in Hps as [_ Helem]. rewrite Helem.
  pose proof (get_group_unique _ _ Hnames Hp) as Hpreg.
  destruct (subgroups_Ok_elem _ _ _ _ _ Hset Hpreg Hgs) as (Hgs_elem & _).
  assert (Group_in self gs = true ↔ self ∈ gs) as Hin.
  { apply (Group_in_registered repo); [done..|].
    intros g Hg%Hgs_elem. by destruct Hg as [_ [_ ?]%get_group_Ok]. }
  rewrite <- Hin. split.
  - intros (_ & gs' & Hgs' & Hin'). congruence.
  - intros Hin'. split; [done|]. by exists gs.
Qed.

Lemma parent_groups_invert_subgroups_witness :
  group_top ∈ [group_top; group_mid] ↔ group_leaf ∈ [group_leaf; group_mid].
Proof.
  apply (parent_groups_invert_subgroups anchored_search insertion_order nested_repo
           group_leaf group_top [group_top; group_mid] [group_leaf; group_mid]
           insertion_order_elem).
  - unfold unique_names. by_eval.
  - by_eval.
  - do 2 apply list_elem_of_further. apply list_elem_of_here.
  - apply list_elem_of_here.
  - vm_compute. reflexivity.
  - vm_compute. reflexivity.
Defined.

(** X24: membership is tested by identity, so a [Group] object that is
    none of the registry's objects has no parents, even when the registry
    holds a group of the same name that has some: [parent_groups] and
    [immediate_parent_groups] return nothing for it. *)
Theorem detached_group_has_no_parents (re_search : Pattern → string → bool)
    (set_iter : list string → list string) (repo : Repository) (self : Group)
    (ps : list Group) :
  (∀ l x, x ∈ set_iter l ↔ x ∈ l) →
  (∀ g, g ∈ groups repo → oid g ≠ oid self) →
  parent_groups re_search set_iter repo self = Some (Ok ps) ∨
  immediate_parent_groups re_search set_iter repo self = Some (Ok ps) →
  ps = [].
Proof.
  intros Hset Hfresh Hps.
  assert (∀ p, p ∉ ps) as Hnone; [|destruct ps as [|p ps]; [done|]].
  - intros p Hp. destruct Hps as [Hps|Hps];
      apply parents_scan_Ok in Hps as [_ Helem];
      apply Helem in Hp as (_ & gs & Hgs & Hin);
      unfold Group_in in Hin; apply existsb_exists in Hin as (g & Hg & Heq);
      apply bool_decide_eq_true in Heq; apply list_elem_of_In in Hg.
    + destruct (subgroups_Ok_inv _ _ _ _ _ Hgs) as (ys & _ & Hmap).
      apply (rmap_get_group_elem _ _ _ Hmap) in Hg as (n & _ & [_ Hg]%get_group_Ok).
      by apply (Hfresh g).
    + injection Hgs as Hgs.
      destruct (immediate_subgroups_Ok_elem _ _ _ _ _ Hset Hgs) as [_ Hgs_elem].
      apply Hgs_elem in Hg as [[_ Hg]%get_group_Ok _]. by apply (Hfresh g).
  - exfalso. apply (Hnone p), list_elem_of_here.
Qed.

Lemma detached_group_has_no_parents_witness :
  parent_groups anchored_search insertion_order nested_repo
    (sample_group 9 "leaf" [] []) = Some (Ok []) ∧
  name (sample_group 9 "leaf" [] []) = name group_leaf.
Proof.
  split; [|reflexivity].
  destruct (parent_groups anchored_search insertion_order nested_repo
              (sample_group 9 "leaf" [] [])) as [[ps|e]|] eqn:Hrun;
    [|vm_compute in Hrun; discriminate Hrun..].
  do 2 f_equal.
  apply (detached_group_has_no_parents anchored_search insertion_order nested_repo
           (sample_group 9 "leaf" [] []) ps insertion_order_elem); [|by left].
  intros g Hg. unfold nested_repo in Hg. simpl in Hg.
  repeat (apply elem_of_cons in Hg as [->|Hg]); [..|by apply elem_of_nil in Hg];
    discriminate.
Defined.
